(** * dbt_common.events.contextvars: prefixed context variables

    A shallow embedding of [src/dbt_common/events/contextvars.py] together
    with the part of Python's [contextvars] library the module calls.

    - A [ContextVar] object is a record; its identity is the field [cv_id],
      handed out by a counter, so that two variables of the same name stay
      two objects.
    - The current [Context] is a finite map from variables to values.
    - The module global [_context_vars] is the [registry], a finite map
      from names to variables.
    - A function of the module is a computation over a [State] that
      returns a value or raises an exception; the state reached is kept in
      both cases, as a [finally] block and the caller go on from it.

    - A [Token] records its variable and the value before the [set] that
      made it; the state keeps which tokens were used.
    - The order in which a [Context] is iterated is a parameter: the
      results hold for every order.

    The development follows one execution context (one thread or task). *)

From stdpp Require Import base gmap sets list strings.
From Stdlib Require Import ZArith.

Local Open Scope string_scope.

(** ** Python values *)

(** [Ellipsis] is the singleton the module uses as its unset marker; a
    caller can pass it like any other object. *)
Inductive value : Type :=
| Ellipsis
| PyNone
| PyInt (z : Z)
| PyStr (s : string)
| PyObj (address : nat).

#[global] Instance value_eq_dec : EqDecision value.
Proof. solve_decision. Defined.

Definition value_code (v : value) : () + () + Z + string + nat :=
  match v with
  | Ellipsis => inl (inl (inl (inl ())))
  | PyNone => inl (inl (inl (inr ())))
  | PyInt z => inl (inl (inr z))
  | PyStr s => inl (inr s)
  | PyObj n => inr n
  end.

Definition value_decode (c : () + () + Z + string + nat) : value :=
  match c with
  | inl (inl (inl (inl _))) => Ellipsis
  | inl (inl (inl (inr _))) => PyNone
  | inl (inl (inr z)) => PyInt z
  | inl (inr s) => PyStr s
  | inr n => PyObj n
  end.

#[global] Instance value_countable : Countable value.
Proof.
  apply (inj_countable' value_code value_decode).
  by intros [].
Defined.

(** [v is Ellipsis] *)
Definition is_Ellipsis (v : value) : bool :=
  match v with Ellipsis => true | _ => false end.

(** ** Strings *)

(** [name.startswith(prefix)] *)
Fixpoint startswith (prefix name : string) : bool :=
  match prefix, name with
  | EmptyString, _ => true
  | String a p, String b n => if decide (a = b) then startswith p n else false
  | String _ _, EmptyString => false
  end.

(** [name[n:]] *)
Fixpoint string_drop (n : nat) (name : string) : string :=
  match n, name with
  | O, _ => name
  | S n', String _ rest => string_drop n' rest
  | S _, EmptyString => EmptyString
  end.

(** ** The contextvars library *)

Record ContextVar : Type := mkContextVar {
  cv_id : nat;
  cv_name : string;
  cv_default : option value
}.

#[global] Instance ContextVar_eq_dec : EqDecision ContextVar.
Proof. solve_decision. Defined.

#[global] Instance ContextVar_countable : Countable ContextVar.
Proof.
  apply (inj_countable'
           (λ var, (cv_id var, cv_name var, cv_default var))
           (λ t, mkContextVar t.1.1 t.1.2 t.2)).
  by intros [].
Defined.

(** A token remembers its variable and the value the variable had before
    the [set] that made it ([None] is [Token.MISSING]). *)
Record Token : Type := mkToken {
  tok_id : nat;
  tok_var : ContextVar;
  tok_old : option value
}.

Inductive exn : Type :=
| KeyError (key : string)
| LookupError
| RuntimeError
| ValueError
| TypeError
| UserError (code : nat).

Record State : Type := mkState {
  registry : gmap string ContextVar;
  ctx : gmap ContextVar value;
  next_var : nat;
  next_token : nat;
  used_tokens : gset nat
}.

Definition with_ctx (c : gmap ContextVar value) (s : State) : State :=
  mkState (registry s) c (next_var s) (next_token s) (used_tokens s).

(** ** Computations *)

Inductive Outcome (A : Type) : Type :=
| Ret (a : A) (s : State)
| Raise (e : exn) (s : State).
Arguments Ret {A} a s.
Arguments Raise {A} e s.

Definition M (A : Type) : Type := State → Outcome A.

Definition outcome_state {A} (o : Outcome A) : State :=
  match o with Ret _ s => s | Raise _ s => s end.

Definition ret {A} (a : A) : M A := λ s, Ret a s.

Definition raise {A} (e : exn) : M A := λ s, Raise e s.

Definition bind {A B} (m : M A) (f : A → M B) : M B :=
  λ s, match m s with
       | Ret a s' => f a s'
       | Raise e s' => Raise e s'
       end.

Notation "x <- m ;; k" := (bind m (λ x, k))
  (at level 100, m at next level, right associativity).
Notation "m ;;; k" := (bind m (λ _, k))
  (at level 100, right associativity).

Definition gets {A} (f : State → A) : M A := λ s, Ret (f s) s.

Definition modify (f : State → State) : M unit := λ s, Ret () (f s).

(** [try: body finally: cleanup] *)
Definition try_finally {A} (body : M A) (cleanup : M unit) : M A :=
  λ s, match body s with
       | Ret a s1 =>
           match cleanup s1 with
           | Ret _ s2 => Ret a s2
           | Raise e s2 => Raise e s2
           end
       | Raise e s1 =>
           match cleanup s1 with
           | Ret _ s2 => Raise e s2
           | Raise e' s2 => Raise e' s2
           end
       end.

(** [try: body except: handler] *)
Definition try_except {A} (body : M A) (handler : exn → M A) : M A :=
  λ s, match body s with
       | Ret a s1 => Ret a s1
       | Raise e s1 => handler e s1
       end.

(** [var.set(v)]: the state after it, and the token it returns. *)
Definition set_state (var : ContextVar) (v : value) (s : State) : State :=
  mkState (registry s) (<[var := v]> (ctx s)) (next_var s)
          (S (next_token s)) (used_tokens s).

Definition var_set (var : ContextVar) (v : value) : M Token :=
  λ s, Ret (mkToken (next_token s) var (ctx s !! var)) (set_state var v s).

(** [var.get()] *)
Definition var_get (var : ContextVar) : M value :=
  λ s, match ctx s !! var with
       | Some v => Ret v s
       | None =>
           match cv_default var with
           | Some d => Ret d s
           | None => Raise LookupError s
           end
       end.

(** [var.reset(token)]: a token is used once, by the variable that made
    it; a token made when the variable had no value deletes the variable
    from the context, which fails when it is not there. *)
Definition var_reset (var : ContextVar) (token : Token) : M unit :=
  λ s, if decide (tok_id token ∈ used_tokens s) then Raise RuntimeError s
       else if decide (tok_var token = var) then
         let s1 := mkState (registry s) (ctx s) (next_var s) (next_token s)
                           ({[tok_id token]} ∪ used_tokens s) in
         match tok_old token with
         | None =>
             match ctx s !! var with
             | None => Raise LookupError s1
             | Some _ => Ret () (with_ctx (delete var (ctx s)) s1)
             end
         | Some old => Ret () (with_ctx (<[var := old]> (ctx s)) s1)
         end
       else Raise ValueError s.

(** ** The module *)

Definition LOG_PREFIX : string := "log_".
Definition TASK_PREFIX : string := "task_".

(** [_CURRENT_NODE = ContextVar('current_node', default=None)], the first
    variable the module creates. *)
Definition _CURRENT_NODE : ContextVar :=
  mkContextVar 0 "current_node" (Some PyNone).

(** The state once the module is loaded, in a context that holds nothing. *)
Definition initial_state : State := mkState ∅ ∅ 1 0 ∅.

(** A call [f(prefix, **kwargs)] binds the first parameter by name as
    well: a keyword called [prefix] clashes with it, and Python raises
    [TypeError] before the body of [f] runs. *)
Definition bind_kwargs {A} (kwargs : list (string * A)) : M unit :=
  if decide ("prefix" ∈ kwargs.*1) then raise TypeError else ret ().

(** [try: var = _context_vars[prefix_key]]
    [except KeyError: var = ContextVar(prefix_key, default=Ellipsis);
                      _context_vars[prefix_key] = var] *)
Definition lookup_or_create (prefix_key : string) : M ContextVar :=
  λ s, match registry s !! prefix_key with
       | Some var => Ret var s
       | None =>
           let var := mkContextVar (next_var s) prefix_key (Some Ellipsis) in
           Ret var (mkState (<[prefix_key := var]> (registry s)) (ctx s)
                            (S (next_var s)) (next_token s) (used_tokens s))
       end.

(** The loop of [set_contextvars]; [kwargs] is a dictionary, so each key
    comes once and [cvar_tokens[k] = ...] adds an entry. *)
Fixpoint set_items (prefix : string) (kwargs : list (string * value))
  : M (list (string * Token)) :=
  match kwargs with
  | [] => ret []
  | (k, v) :: rest =>
      var <- lookup_or_create (prefix +:+ k) ;;
      token <- var_set var v ;;
      cvar_tokens <- set_items prefix rest ;;
      ret ((k, token) :: cvar_tokens)
  end.

Definition set_contextvars (prefix : string) (kwargs : list (string * value))
  : M (list (string * Token)) :=
  bind_kwargs kwargs ;;; set_items prefix kwargs.

Definition set_log_contextvars := set_contextvars LOG_PREFIX.
Definition set_task_contextvars := set_contextvars TASK_PREFIX.

(** The loop of [reset_contextvars]: [_context_vars[prefix_key]] raises
    [KeyError] for a name that is not in the registry. *)
Fixpoint reset_items (prefix : string) (kwargs : list (string * Token))
  : M unit :=
  match kwargs with
  | [] => ret ()
  | (k, v) :: rest =>
      let prefix_key := prefix +:+ k in
      var <- (λ s, match registry s !! prefix_key with
                   | Some var => Ret var s
                   | None => Raise (KeyError prefix_key) s
                   end) ;;
      var_reset var v ;;;
      reset_items prefix rest
  end.

Definition reset_contextvars (prefix : string) (kwargs : list (string * Token))
  : M unit :=
  bind_kwargs kwargs ;;; reset_items prefix kwargs.

(** One turn of the loop of [unset_contextvars]. *)
Definition unset_key (prefix : string) (s : State) (k : string) : State :=
  match registry s !! (prefix +:+ k) with
  | Some var => set_state var Ellipsis s
  | None => s
  end.

(** [unset_contextvars(prefix, *keys)] raises nothing: a plain function on
    states. *)
Definition unset_contextvars (prefix : string) (keys : list string)
  (s : State) : State :=
  foldl (unset_key prefix) s keys.

(** [_CURRENT_NODE.set(node)] *)
Definition set_current_node (node : value) : M unit :=
  var_set _CURRENT_NODE node ;;; ret ().

(** [_CURRENT_NODE.get()] *)
Definition get_current_node : M value := var_get _CURRENT_NODE.

(** [d[k]] on a dictionary. *)
Definition getitem (d : gmap string value) (k : string) : M value :=
  match d !! k with
  | Some v => ret v
  | None => raise (KeyError k)
  end.

(** [{k: context[k] for k in context.keys() & kwargs.keys()}].  A set has
    no fixed order; the entries are listed here in the order of [keys].
    The result is only ever passed to [set_contextvars], which writes each
    entry to the variable of its own key. *)
Definition restrict (context : gmap string value) (keys : list string)
  : list (string * value) :=
  omap (λ k, (λ v, (k, v)) <$> context !! k) keys.

(** A dictionary has each key once, and the keyword [prefix] cannot be
    passed to a function whose first parameter has that name. *)
Definition kwargs_ok {A} (kwargs : list (string * A)) : Prop :=
  NoDup kwargs.*1 ∧ "prefix" ∉ kwargs.*1.

(** What [get_node_info] returns: the object stored under [node_info],
    or a new empty dictionary [{}]. *)
Inductive node_info_result : Type :=
| stored (v : value)
| empty_dict.

Section iteration.

(** Iterating over a [Context] yields each variable that has a value once;
    the order is that of the hash table inside, which nothing in the
    module fixes.  It is a parameter here. *)
Variable ctx_iter : gmap ContextVar value → list (ContextVar * value).

(** One turn of the loop of [get_contextvars]. *)
Definition collect_var (prefix : string) (rv : gmap string value)
  (kv : ContextVar * value) : gmap string value :=
  if startswith prefix (cv_name kv.1) && negb (is_Ellipsis kv.2)
  then <[string_drop (String.length prefix) (cv_name kv.1) := kv.2]> rv
  else rv.

(** [get_contextvars(prefix)] reads the context and raises nothing: a
    plain function of the state. *)
Definition get_contextvars (prefix : string) (s : State)
  : gmap string value :=
  foldl (collect_var prefix) ∅ (ctx_iter (ctx s)).

(** One turn of the loop of [clear_contextvars]. *)
Definition clear_var (prefix : string) (s : State)
  (kv : ContextVar * value) : State :=
  if startswith prefix (cv_name kv.1) then set_state kv.1 Ellipsis s else s.

(** [clear_contextvars(prefix)] iterates over a copy of the context taken
    at the start and sets in the current one. *)
Definition clear_contextvars (prefix : string) (s : State) : State :=
  foldl (clear_var prefix) s (ctx_iter (ctx s)).

(** The leaving step of the two context managers, their [finally] block. *)
Definition scope_exit (prefix : string) (kwargs saved : list (string * value))
  : M unit :=
  modify (unset_contextvars prefix kwargs.*1) ;;;
  set_contextvars prefix saved ;;;
  ret ().

(** The text that [log_contextvars] and [task_contextvars] share; [body]
    is the block under [with], run at the generator's [yield]. *)
Definition scoped_contextvars {A} (prefix : string)
  (kwargs : list (string * value)) (body : M A) : M A :=
  context <- gets (get_contextvars prefix) ;;
  let saved := restrict context kwargs.*1 in
  set_contextvars prefix kwargs ;;;
  try_finally body (scope_exit prefix kwargs saved).

Definition log_contextvars {A} := @scoped_contextvars A LOG_PREFIX.
Definition task_contextvars {A} := @scoped_contextvars A TASK_PREFIX.

(** The computations a caller builds from the module's functions;
    [nodes] tells whether [set_current_node] is among them. *)
Inductive api (nodes : bool) : ∀ {A : Type}, M A → Prop :=
| api_ret {A} (a : A) : api nodes (ret a)
| api_raise {A} (e : exn) : api nodes (@raise A e)
| api_bind {A B} (m : M A) (f : A → M B) :
    api nodes m → (∀ a, api nodes (f a)) → api nodes (bind m f)
| api_try_except {A} (m : M A) (h : exn → M A) :
    api nodes m → (∀ e, api nodes (h e)) → api nodes (try_except m h)
| api_try_finally {A} (m : M A) (c : M unit) :
    api nodes m → api nodes c → api nodes (try_finally m c)
| api_gets {A} (f : State → A) : api nodes (gets f)
| api_set_contextvars prefix kwargs :
    api nodes (set_contextvars prefix kwargs)
| api_reset_contextvars prefix kwargs :
    api nodes (reset_contextvars prefix kwargs)
| api_unset_contextvars prefix keys :
    api nodes (modify (unset_contextvars prefix keys))
| api_clear_contextvars prefix :
    api nodes (modify (clear_contextvars prefix))
| api_set_current_node node :
    nodes = true → api nodes (set_current_node node)
| api_get_current_node : api nodes get_current_node.

(** [readVisible(p)[x]] as a block. *)
Definition read_key (p x : string) : M value :=
  d <- gets (get_contextvars p) ;; getitem d x.

(** The sentence on reading after writing, as the specification has it:
    the read returns the entries together with the earlier bindings of
    the other keys. *)
Definition set_then_read_as_stated (p : string)
  (kwargs : list (string * value)) (s : State) : Prop :=
  get_contextvars p (outcome_state (set_contextvars p kwargs s))
  = list_to_map kwargs
    ∪ filter (λ kv, kv.1 ∉ kwargs.*1) (get_contextvars p s).

(** [cvars = get_contextvars(LOG_PREFIX)];
    [cvars["node_info"]] if the key is there, else [{}]. *)
Definition get_node_info (s : State) : node_info_result :=
  let cvars := get_contextvars LOG_PREFIX s in
  match cvars !! "node_info" with
  | Some v => stored v
  | None => empty_dict
  end.

(** [cvars = get_contextvars(TASK_PREFIX)];
    [cvars["project_root"]] if the key is there, else [None]. *)
Definition get_project_root (s : State) : value :=
  let cvars := get_contextvars TASK_PREFIX s in
  match cvars !! "project_root" with
  | Some v => v
  | None => PyNone
  end.



End iteration.

(** ** Invariants *)

(** What holds of the registry and the context in every state the module
    reaches from [initial_state]: a registered variable carries the name it
    is registered under and was made after [_CURRENT_NODE], and every
    variable in sight was made before the counter's present value. *)
Record inv (s : State) : Prop := mkInv {
  inv_name : ∀ n var, registry s !! n = Some var → cv_name var = n;
  inv_reg_id : ∀ n var, registry s !! n = Some var →
                        0 < cv_id var < next_var s;
  inv_ctx_id : ∀ var v, ctx s !! var = Some v → cv_id var < next_var s;
  inv_pos : 0 < next_var s
}.

(** Every variable of the context whose name starts with [prefix] is the
    registry's variable of that name.  From [initial_state] on this holds
    of each prefix that is no initial segment of [current_node], so of
    [log_] and [task_]: the module makes its other variables through the
    registry. *)
Definition owned (prefix : string) (s : State) : Prop :=
  ∀ var v, ctx s !! var = Some v → startswith prefix (cv_name var) = true →
           registry s !! cv_name var = Some var.

(** Tokens that were used came from an earlier [set]. *)
Definition tokens_ok (s : State) : Prop :=
  ∀ t, t ∈ used_tokens s → t < next_token s.


(** The value of the variable registered under a name, if any. *)
Definition reg_value (s : State) (n : string) : option value :=
  registry s !! n ≫= λ var, ctx s !! var.

(** What a read shows of it: [Ellipsis] is hidden. *)
Definition shown (o : option value) : option value :=
  o ≫= λ v, if is_Ellipsis v then None else Some v.

(** Undoing a [set]: what a token puts back. *)
Definition restore (var : ContextVar) (old : option value)
  (c : gmap ContextVar value) : gmap ContextVar value :=
  match old with
  | Some v => <[var := v]> c
  | None => delete var c
  end.

(** [keeps p m]: running [m] keeps the invariants that the reads under
    [p] rest on. *)
Definition keeps (p : string) {A} (m : M A) : Prop :=
  ∀ s, inv s → owned p s →
       inv (outcome_state (m s)) ∧ owned p (outcome_state (m s)).

(** The sentence on the failure of [reset_contextvars], as the
    specification has it: a key whose variable was never created makes
    the call fail with the error for an unknown variable. *)
Definition reset_raises_as_stated (p : string)
  (tokens : list (string * Token)) (s : State) : Prop :=
  (∃ k, k ∈ tokens.*1 ∧ registry s !! (p +:+ k) = None) →
  ∃ n s', reset_contextvars p tokens s = Raise (KeyError n) s'.


(** [log_x] holds 0. *)
Definition x0_state : State :=
  outcome_state (set_contextvars "log_" [("x", PyInt 0)] initial_state).

(** A token taken back once, and the state after that. *)
Definition used_token : Token :=
  mkToken 0 (mkContextVar 1 "log_a" (Some Ellipsis)) None.

Definition used_state : State :=
  outcome_state
    ((tokens <- set_contextvars "log_" [("a", PyInt 1)] ;;
      reset_contextvars "log_" tokens) initial_state).

(** Two variables of one name: [_CURRENT_NODE], and the variable that
    [set_contextvars] registers for the prefix [current_] and the key
    [node]. *)
Definition two_nodes_state : State :=
  outcome_state
    ((set_current_node (PyObj 5) ;;;
      set_contextvars "current_" [("node", PyInt 1)]) initial_state).

(** ** Two callers of [set_contextvars] in parallel

    Threads have a context each and share the module: its registry and
    the objects it makes.  The source takes no lock, so a thread can be
    suspended between any two statements of the loop of
    [set_contextvars]; a caller is followed here one statement at a
    time. *)

(** Where a caller is in the turn of the loop for the entry at the head
    of [c_todo]: before [var = _context_vars[prefix_key]], in the
    [except KeyError] branch before [ContextVar(...)], before
    [_context_vars[prefix_key] = var], or before
    [cvar_tokens[k] = var.set(v)]. *)
Inductive stage : Type :=
| AtLookup
| AtCreate
| AtStore (var : ContextVar)
| AtSet (var : ContextVar).

Record Caller : Type := mkCaller {
  c_prefix : string;
  c_todo : list (string * value);
  c_stage : stage;
  c_tokens : list (string * Token)
}.

(** One statement of the caller, on the state made of the shared
    registry and counters and the caller's own context.  A caller whose
    entries are all written has returned and does nothing more. *)
Definition caller_step (s : State) (c : Caller) : State * Caller :=
  match c_todo c with
  | [] => (s, c)
  | (k, v) :: rest =>
      let prefix_key := c_prefix c +:+ k in
      match c_stage c with
      | AtLookup =>
          match registry s !! prefix_key with
          | Some var =>
              (s, mkCaller (c_prefix c) (c_todo c) (AtSet var) (c_tokens c))
          | None =>
              (s, mkCaller (c_prefix c) (c_todo c) AtCreate (c_tokens c))
          end
      | AtCreate =>
          let var := mkContextVar (next_var s) prefix_key (Some Ellipsis) in
          (mkState (registry s) (ctx s) (S (next_var s)) (next_token s)
                   (used_tokens s),
           mkCaller (c_prefix c) (c_todo c) (AtStore var) (c_tokens c))
      | AtStore var =>
          (mkState (<[prefix_key := var]> (registry s)) (ctx s) (next_var s)
                   (next_token s) (used_tokens s),
           mkCaller (c_prefix c) (c_todo c) (AtSet var) (c_tokens c))
      | AtSet var =>
          match var_set var v s with
          | Ret token s' =>
              (s', mkCaller (c_prefix c) rest AtLookup
                     (c_tokens c ++ [(k, token)])%list)
          | Raise _ _ => (s, c)
          end
      end
  end.

(** A caller followed for [n] statements on its own. *)
Fixpoint caller_run (n : nat) (s : State) (c : Caller) : State * Caller :=
  match n with
  | O => (s, c)
  | S n' => let '(s', c') := caller_step s c in caller_run n' s' c'
  end.




















(** ** Strings *)

Lemma startswith_app p k : startswith p (p +:+ k) = true.
Proof. induction p as [|a p IH]; simpl; [done|]. by rewrite decide_True. Qed.

Lemma string_drop_app p k : string_drop (String.length p) (p +:+ k) = k.
Proof. induction p as [|a p IH]; simpl; done. Qed.

Lemma startswith_split p n :
  startswith p n = true → n = p +:+ string_drop (String.length p) n.
Proof.
  revert n. induction p as [|a p IH]; intros n; simpl; [done|].
  destruct n as [|b n]; [done|]. case_decide; [|done].
  intros Hp. subst.
  change (String b n = String b (p +:+ string_drop (String.length p) n)).
  f_equal. by apply IH.
Qed.

Lemma string_app_inj p k1 k2 : p +:+ k1 = p +:+ k2 → k1 = k2.
Proof. induction p as [|a p IH]; simpl; [done|]. intros [=]. auto. Qed.

Lemma startswith_drop_inj p n1 n2 :
  startswith p n1 = true → startswith p n2 = true →
  string_drop (String.length p) n1 = string_drop (String.length p) n2 →
  n1 = n2.
Proof.
  intros H1 H2 E. rewrite (startswith_split _ _ H1), (startswith_split _ _ H2).
  by rewrite E.
Qed.

(** ** Computations *)

Lemma bind_Ret {A B} (m : M A) (f : A → M B) s a s' :
  m s = Ret a s' → bind m f s = f a s'.
Proof. unfold bind. by intros ->. Qed.

Lemma bind_Raise {A B} (m : M A) (f : A → M B) s e s' :
  m s = Raise e s' → bind m f s = Raise e s'.
Proof. unfold bind. by intros ->. Qed.

Lemma inv_initial : inv initial_state.
Proof. split; simpl; intros; try lia; by rewrite lookup_empty in *. Qed.

Lemma owned_initial p : owned p initial_state.
Proof. intros var v. simpl. by rewrite lookup_empty. Qed.

Lemma tokens_ok_initial : tokens_ok initial_state.
Proof. intros t. simpl. set_solver. Qed.

(** ** [set_contextvars] *)

(** One turn of the loop: the variable it writes and the state it
    leaves. *)
Lemma set_items_cons p k v rest s :
  ∃ var s1,
    set_items p ((k, v) :: rest) s
    = (cvar_tokens <- set_items p rest ;;
       ret ((k, mkToken (next_token s) var (ctx s !! var)) :: cvar_tokens)) s1
    ∧ registry s1 !! (p +:+ k) = Some var
    ∧ ctx s1 = <[var := v]> (ctx s)
    ∧ next_token s1 = S (next_token s)
    ∧ used_tokens s1 = used_tokens s
    ∧ (registry s !! (p +:+ k) = Some var ∧ registry s1 = registry s
         ∧ next_var s1 = next_var s
       ∨ registry s !! (p +:+ k) = None
         ∧ registry s1 = <[p +:+ k := var]> (registry s)
         ∧ var = mkContextVar (next_var s) (p +:+ k) (Some Ellipsis)
         ∧ next_var s1 = S (next_var s)).
Proof.
  simpl. unfold bind at 1. unfold lookup_or_create.
  destruct (registry s !! (p +:+ k)) as [var|] eqn:E.
  - exists var, (set_state var v s). unfold bind at 1, var_set.
    repeat split; auto.
  - eexists _, _. unfold bind at 1, var_set. simpl.
    split; [reflexivity|]. simpl. rewrite lookup_insert_eq.
    repeat split; auto.
Qed.

Lemma set_step_inv p k v s var s1 :
  inv s →
  registry s1 !! (p +:+ k) = Some var →
  ctx s1 = <[var := v]> (ctx s) →
  (registry s !! (p +:+ k) = Some var ∧ registry s1 = registry s
     ∧ next_var s1 = next_var s
   ∨ registry s !! (p +:+ k) = None
     ∧ registry s1 = <[p +:+ k := var]> (registry s)
     ∧ var = mkContextVar (next_var s) (p +:+ k) (Some Ellipsis)
     ∧ next_var s1 = S (next_var s)) →
  inv s1 ∧ registry s ⊆ registry s1 ∧ (∀ q, owned q s → owned q s1).
Proof.
  intros [Hn Hr Hc Hp] Hreg Hctx [(Hold & Er & Ev)|(Hnew & Er & Evar & Ev)].
  - split; [split|split].
    + rewrite Er. exact Hn.
    + rewrite Er, Ev. exact Hr.
    + intros var' v'. rewrite Hctx, Ev, lookup_insert.
      case_decide; [intros _; subst; apply (Hr _ _ Hold) | eauto].
    + lia.
    + by rewrite Er.
    + intros q Hq var' v'. rewrite Hctx, Er, lookup_insert.
      case_decide; [|by eauto]. subst var'. intros _ _.
      by rewrite (Hn _ _ Hold).
  - split; [split|split].
    + intros n var'. rewrite Er, lookup_insert.
      case_decide; [|by eauto]. intros [= <-]. by subst.
    + intros n var'. rewrite Er, Ev, lookup_insert.
      case_decide; [intros [= <-]; subst; simpl; lia|].
      intros Hl. apply Hr in Hl. lia.
    + intros var' v'. rewrite Hctx, Ev, lookup_insert.
      case_decide; [intros _; subst; simpl; lia|].
      intros Hl. apply Hc in Hl. lia.
    + lia.
    + rewrite Er. by apply insert_subseteq.
    + intros q Hq var' v'. rewrite Hctx, Er, lookup_insert.
      case_decide as Hv.
      * subst var'. intros _ _. subst var. simpl. by rewrite lookup_insert_eq.
      * intros Hl Hs. pose proof (Hq _ _ Hl Hs) as Hreg'.
        rewrite lookup_insert_ne; [done|]. intros Heq.
        rewrite <- Heq in Hreg'. congruence.
Qed.

Lemma set_items_inv p kwargs s :
  inv s →
  ∃ tokens s', set_items p kwargs s = Ret tokens s' ∧ inv s'
               ∧ registry s ⊆ registry s' ∧ (∀ q, owned q s → owned q s').
Proof.
  revert s. induction kwargs as [|[k v] rest IH]; intros s Hinv.
  - exists [], s. by split_and!.
  - destruct (set_items_cons p k v rest s)
      as (var & s1 & -> & Hreg & Hctx & _ & _ & Hcase).
    destruct (set_step_inv p k v s var s1 Hinv Hreg Hctx Hcase)
      as (Hinv1 & Hsub1 & Hown1).
    destruct (IH s1 Hinv1) as (tokens & s' & E & Hinv' & Hsub' & Hown').
    eexists _, s'. rewrite (bind_Ret _ _ _ _ _ E).
    split_and!; auto. by transitivity (registry s1).
Qed.

(** Two keys of one prefix never share a variable. *)
Lemma registered_inj p s k1 k2 var :
  inv s →
  registry s !! (p +:+ k1) = Some var → registry s !! (p +:+ k2) = Some var →
  k1 = k2.
Proof.
  intros Hinv H1 H2. apply (string_app_inj p).
  by rewrite <- (inv_name s Hinv _ _ H1), <- (inv_name s Hinv _ _ H2).
Qed.

(** The loop of [set_contextvars] on a dictionary: what it registers, what
    it writes, what it leaves alone, and the tokens it hands back. *)
Lemma set_items_spec p kwargs s :
  inv s → NoDup kwargs.*1 →
  ∃ tokens s',
    set_items p kwargs s = Ret tokens s'
    ∧ inv s'
    ∧ registry s ⊆ registry s'
    ∧ (∀ n, n ∉ (String.append p <$> kwargs.*1) →
            registry s' !! n = registry s !! n)
    ∧ (∀ k v, (k, v) ∈ kwargs →
              ∃ var, registry s' !! (p +:+ k) = Some var
                     ∧ ctx s' !! var = Some v)
    ∧ (∀ var, (∀ k, k ∈ kwargs.*1 → registry s' !! (p +:+ k) ≠ Some var) →
              ctx s' !! var = ctx s !! var)
    ∧ used_tokens s' = used_tokens s
    ∧ next_token s' = next_token s + length kwargs
    ∧ tokens.*1 = kwargs.*1
    ∧ (∀ k t, (k, t) ∈ tokens →
              registry s' !! (p +:+ k) = Some (tok_var t)
              ∧ tok_old t = ctx s !! tok_var t)
    ∧ tok_id <$> tokens.*2 = seq (next_token s) (length kwargs).
Proof.
  revert s. induction kwargs as [|[k v] rest IH]; intros s Hinv Hnd.
  - exists [], s.
    split_and!; auto; try (simpl; lia);
      intros ? ? Hin; by apply elem_of_nil in Hin.
  - destruct (set_items_cons p k v rest s)
      as (var & s1 & -> & Hreg & Hctx & Htok & Hused & Hcase).
    destruct (set_step_inv p k v s var s1 Hinv Hreg Hctx Hcase)
      as (Hinv1 & Hsub1 & _).
    apply NoDup_cons in Hnd as [Hk Hnd].
    destruct (IH s1 Hinv1 Hnd)
      as (tokens & s' & E & Hinv' & Hsub & Hnew & Hset & Hframe & Hu & Hnt
          & Hkeys & Htoks & Hids).
    assert (Hreg' : registry s' !! (p +:+ k) = Some var)
      by (by eapply lookup_weaken).
    assert (Hother : ∀ k', k' ∈ rest.*1 → registry s' !! (p +:+ k') ≠ Some var).
    { intros k' Hk' Hl. apply Hk.
      by rewrite (registered_inj p s' k k' var Hinv' Hreg' Hl). }
    assert (Hvar : ctx s' !! var = Some v).
    { rewrite (Hframe var Hother), Hctx. apply lookup_insert_eq. }
    eexists _, s'. rewrite (bind_Ret _ _ _ _ _ E). split_and!; auto.
    + by transitivity (registry s1).
    + intros n Hn. simpl in Hn. rewrite not_elem_of_cons in Hn.
      destruct Hn as [Hne Hn]. rewrite (Hnew n Hn).
      destruct Hcase as [(_ & -> & _)|(_ & -> & _)]; [done|].
      by rewrite lookup_insert_ne.
    + intros k0 v0 Hin. apply elem_of_cons in Hin as [[= -> ->]|Hin]; eauto.
    + intros var' Hvar'. rewrite Hframe, Hctx.
      * apply lookup_insert_ne. intros <-. apply (Hvar' k); [|done].
        simpl. left.
      * intros k' Hk'. apply Hvar'. simpl. by right.
    + congruence.
    + simpl. lia.
    + simpl. by f_equal.
    + intros k0 t Hin. apply elem_of_cons in Hin as [[= -> ->]|Hin].
      * done.
      * destruct (Htoks _ _ Hin) as [Hr Ho]. split; [done|].
        rewrite Ho, Hctx. apply lookup_insert_ne. intros Heq.
        apply (Hother k0); [|by rewrite Heq]. rewrite <- Hkeys.
        apply list_elem_of_fmap. by exists (k0, t).
    + rewrite !fmap_cons, Hids, Htok. reflexivity.
Qed.

Lemma set_contextvars_unfold p (kwargs : list (string * value)) s :
  "prefix" ∉ kwargs.*1 → set_contextvars p kwargs s = set_items p kwargs s.
Proof.
  intros Hk. unfold set_contextvars, bind, bind_kwargs.
  by rewrite decide_False.
Qed.

Lemma set_contextvars_clash p (kwargs : list (string * value)) s :
  "prefix" ∈ kwargs.*1 → set_contextvars p kwargs s = Raise TypeError s.
Proof.
  intros Hk. unfold set_contextvars, bind, bind_kwargs.
  by rewrite decide_True.
Qed.

(** The value under each registered name after [set_contextvars]. *)
Lemma set_items_reg_value_in p kwargs s tokens s' k v :
  inv s → NoDup kwargs.*1 → set_items p kwargs s = Ret tokens s' →
  (k, v) ∈ kwargs → reg_value s' (p +:+ k) = Some v.
Proof.
  intros Hinv Hnd E Hin.
  destruct (set_items_spec p kwargs s Hinv Hnd)
    as (? & ? & E' & _ & _ & _ & Hset & _).
  rewrite E in E'. injection E' as <- <-.
  destruct (Hset _ _ Hin) as (var & Hr & Hc).
  unfold reg_value. by rewrite Hr.
Qed.

Lemma set_items_reg_value_out p kwargs s tokens s' n :
  inv s → NoDup kwargs.*1 → set_items p kwargs s = Ret tokens s' →
  n ∉ (String.append p <$> kwargs.*1) → reg_value s' n = reg_value s n.
Proof.
  intros Hinv Hnd E Hn.
  destruct (set_items_spec p kwargs s Hinv Hnd)
    as (? & ? & E' & Hinv' & _ & Hnew & _ & Hframe & _).
  rewrite E in E'. injection E' as <- <-.
  unfold reg_value. rewrite (Hnew n Hn).
  destruct (registry s !! n) as [var|] eqn:Hr; [simpl|done].
  apply Hframe. intros k Hk Hl. apply Hn.
  apply list_elem_of_fmap. exists k. split; [|done].
  rewrite <- (inv_name s' Hinv' _ _ Hl).
  rewrite <- (Hnew n Hn) in Hr. by rewrite (inv_name s' Hinv' _ _ Hr).
Qed.

(** ** [unset_contextvars] *)

Lemma unset_key_registry p s k : registry (unset_key p s k) = registry s.
Proof. unfold unset_key. by destruct (registry s !! (p +:+ k)). Qed.

Lemma unset_contextvars_snoc p keys k s :
  unset_contextvars p (keys ++ [k]) s
  = unset_key p (unset_contextvars p keys s) k.
Proof. unfold unset_contextvars. by rewrite foldl_snoc. Qed.

Lemma unset_contextvars_registry p keys s :
  registry (unset_contextvars p keys s) = registry s.
Proof.
  induction keys as [|k keys IH] using rev_ind; [done|].
  by rewrite unset_contextvars_snoc, unset_key_registry.
Qed.

(** The variable of a listed key holds [Ellipsis] afterwards. *)
Lemma unset_contextvars_in p keys s k var :
  k ∈ keys → registry s !! (p +:+ k) = Some var →
  ctx (unset_contextvars p keys s) !! var = Some Ellipsis.
Proof.
  induction keys as [|k' keys IH] using rev_ind; intros Hin Hr.
  - by apply elem_of_nil in Hin.
  - rewrite unset_contextvars_snoc. unfold unset_key.
    rewrite unset_contextvars_registry.
    destruct (registry s !! (p +:+ k')) as [var'|] eqn:Hr'.
    + simpl. rewrite lookup_insert. case_decide; [done|].
      apply elem_of_app in Hin as [Hin|Hin]; [by apply IH|].
      apply list_elem_of_singleton in Hin. subst. congruence.
    + apply elem_of_app in Hin as [Hin|Hin]; [by apply IH|].
      apply list_elem_of_singleton in Hin. subst. congruence.
Qed.

(** Every other variable keeps its value. *)
Lemma unset_contextvars_out p keys s var :
  (∀ k, k ∈ keys → registry s !! (p +:+ k) ≠ Some var) →
  ctx (unset_contextvars p keys s) !! var = ctx s !! var.
Proof.
  induction keys as [|k' keys IH] using rev_ind; intros Hout; [done|].
  rewrite unset_contextvars_snoc. unfold unset_key.
  rewrite unset_contextvars_registry.
  assert (Hrec : ctx (unset_contextvars p keys s) !! var = ctx s !! var).
  { apply IH. intros k Hk. apply Hout. apply elem_of_app. by left. }
  destruct (registry s !! (p +:+ k')) as [var'|] eqn:Hr'; [|done].
  simpl. rewrite lookup_insert_ne; [done|]. intros ->.
  apply (Hout k'); [|done]. apply elem_of_app. right. by left.
Qed.

Lemma unset_contextvars_inv p keys s :
  inv s →
  inv (unset_contextvars p keys s)
  ∧ (∀ q, owned q s → owned q (unset_contextvars p keys s)).
Proof.
  intros Hinv. induction keys as [|k keys [IH1 IH2]] using rev_ind; [done|].
  rewrite unset_contextvars_snoc. unfold unset_key.
  destruct (registry (unset_contextvars p keys s) !! (p +:+ k))
    as [var|] eqn:Hr; [|done].
  destruct IH1 as [Hn Hi Hc Hp]. split; [split; simpl; auto|].
  - intros var' v'. rewrite lookup_insert. case_decide; [|by eauto].
    subst. intros _. apply (Hi _ _ Hr).
  - intros q Hq var' v'. simpl. rewrite lookup_insert.
    case_decide; [|by apply (IH2 q Hq)].
    subst var'. intros _ _. by rewrite (Hn _ _ Hr).
Qed.

(** ** [reset_contextvars] *)

Lemma reset_contextvars_unfold p (kwargs : list (string * Token)) s :
  "prefix" ∉ kwargs.*1 → reset_contextvars p kwargs s = reset_items p kwargs s.
Proof.
  intros Hk. unfold reset_contextvars, bind, bind_kwargs.
  by rewrite decide_False.
Qed.

Lemma reset_items_cons_None p k t rest s :
  registry s !! (p +:+ k) = None →
  reset_items p ((k, t) :: rest) s = Raise (KeyError (p +:+ k)) s.
Proof. intros Hr. simpl. unfold bind at 1. by rewrite Hr. Qed.

Lemma reset_items_cons_Some p k t rest s var :
  registry s !! (p +:+ k) = Some var →
  reset_items p ((k, t) :: rest) s
  = (var_reset var t ;;; reset_items p rest) s.
Proof. intros Hr. simpl. unfold bind at 1. by rewrite Hr. Qed.

Lemma reset_items_app p l1 l2 s :
  reset_items p (l1 ++ l2) s = (reset_items p l1 ;;; reset_items p l2) s.
Proof.
  revert s. induction l1 as [|[k t] l1 IH]; intros s; [done|].
  rewrite <- app_comm_cons.
  destruct (registry s !! (p +:+ k)) as [var|] eqn:Hr.
  - unfold bind at 1.
    rewrite !(reset_items_cons_Some _ _ _ _ _ _ Hr). unfold bind.
    destruct (var_reset var t s); [apply IH|done].
  - unfold bind. by rewrite !(reset_items_cons_None _ _ _ _ _ Hr).
Qed.

(** [var.reset] raises no [KeyError] and leaves the registry as it is. *)
Lemma var_reset_registry var t s :
  registry (outcome_state (var_reset var t s)) = registry s
  ∧ ∀ n s', var_reset var t s ≠ Raise (KeyError n) s'.
Proof.
  unfold var_reset. repeat case_decide; [done| |done].
  destruct (tok_old t); [done|]. by destruct (ctx s !! var).
Qed.

Lemma var_reset_inv var t s n :
  inv s → registry s !! n = Some var →
  inv (outcome_state (var_reset var t s))
  ∧ ∀ q, owned q s → owned q (outcome_state (var_reset var t s)).
Proof.
  intros [Hn Hi Hc Hp] Hr. unfold var_reset.
  repeat case_decide; [done| |done].
  destruct (tok_old t) as [old|].
  - split; [split; simpl; auto|].
    + intros var' v'. rewrite lookup_insert. case_decide; [|by eauto].
      subst. intros _. apply (Hi _ _ Hr).
    + intros q Hq var' v'. simpl. rewrite lookup_insert.
      case_decide; [|by apply Hq]. subst var'. intros _ _.
      by rewrite (Hn _ _ Hr).
  - destruct (ctx s !! var) eqn:Hv; [|done].
    split; [split; simpl; auto|].
    + intros var' v'. rewrite lookup_delete_Some. intros [_ Hl]. eauto.
    + intros q Hq var' v'. simpl. rewrite lookup_delete_Some.
      intros [_ Hl]. by apply (Hq var' v').
Qed.

Lemma reset_items_inv p kwargs s :
  inv s →
  inv (outcome_state (reset_items p kwargs s))
  ∧ ∀ q, owned q s → owned q (outcome_state (reset_items p kwargs s)).
Proof.
  revert s. induction kwargs as [|[k t] rest IH]; intros s Hinv; [done|].
  destruct (registry s !! (p +:+ k)) as [var|] eqn:Hr.
  - rewrite (reset_items_cons_Some _ _ _ _ _ _ Hr). unfold bind.
    destruct (var_reset_inv var t s _ Hinv Hr) as [H1 H2].
    pose proof (var_reset_registry var t s) as [H3 _].
    destruct (var_reset var t s) as [[] s1|e s1]; simpl in *; [|done].
    destruct (IH s1 H1) as [H4 H5]. split; [done|]. intros q Hq.
    apply H5. by apply H2.
  - by rewrite (reset_items_cons_None _ _ _ _ _ Hr).
Qed.

(** A [KeyError] comes from a key that has no variable in the registry. *)
Lemma reset_items_KeyError p kwargs s n s' :
  reset_items p kwargs s = Raise (KeyError n) s' →
  ∃ k, k ∈ kwargs.*1 ∧ n = p +:+ k ∧ registry s !! n = None.
Proof.
  revert s. induction kwargs as [|[k t] rest IH]; intros s; [done|].
  destruct (registry s !! (p +:+ k)) as [var|] eqn:Hr.
  - rewrite (reset_items_cons_Some _ _ _ _ _ _ Hr). unfold bind.
    pose proof (var_reset_registry var t s) as [H1 H2].
    destruct (var_reset var t s) as [[] s1|e s1] eqn:E; simpl in *.
    + intros Hk. destruct (IH _ Hk) as (k' & Hin & -> & Hnone).
      exists k'. rewrite <- H1. split_and!; auto. by right.
    + intros [= -> ->]. by destruct (H2 n s').
  - rewrite (reset_items_cons_None _ _ _ _ _ Hr). intros [= <- <-].
    exists k. split_and!; auto. by left.
Qed.

Lemma var_reset_ok var t s :
  tok_id t ∉ used_tokens s → tok_var t = var → is_Some (ctx s !! var) →
  ∃ s', var_reset var t s = Ret () s'
        ∧ registry s' = registry s
        ∧ ctx s' = restore var (tok_old t) (ctx s)
        ∧ used_tokens s' = {[tok_id t]} ∪ used_tokens s.
Proof.
  intros Hu Hv [v Hc]. unfold var_reset.
  rewrite decide_False, decide_True by done.
  destruct (tok_old t); [by eexists|]. rewrite Hc. by eexists.
Qed.

(** Fresh tokens for registered variables that hold a value, one for each
    key, are all taken back: each variable gets its old value. *)
Lemma reset_items_restore p tokens s :
  inv s → NoDup tokens.*1 → NoDup (tok_id <$> tokens.*2) →
  (∀ k t, (k, t) ∈ tokens →
          registry s !! (p +:+ k) = Some (tok_var t)
          ∧ (tok_id t ∉ used_tokens s)
          ∧ is_Some (ctx s !! tok_var t)) →
  ∃ s', reset_items p tokens s = Ret () s'
        ∧ registry s' = registry s
        ∧ (∀ k t, (k, t) ∈ tokens → ctx s' !! tok_var t = tok_old t)
        ∧ (∀ var, (∀ k, k ∈ tokens.*1 →
                        registry s !! (p +:+ k) ≠ Some var) →
                  ctx s' !! var = ctx s !! var).
Proof.
  revert s. induction tokens as [|[k t] rest IH]; intros s Hinv Hk Hid Hall.
  - exists s. split_and!; auto. intros ? ? Hin. by apply elem_of_nil in Hin.
  - destruct (Hall k t) as (Hr & Hu & Hc); [by left|].
    rewrite fmap_cons in Hk. apply NoDup_cons in Hk as [Hk1 Hk].
    rewrite !fmap_cons in Hid. apply NoDup_cons in Hid as [Hid1 Hid].
    destruct (var_reset_ok (tok_var t) t s Hu eq_refl Hc)
      as (s1 & E1 & Hr1 & Hc1 & Hu1).
    assert (Hinv1 : inv s1).
    { pose proof (var_reset_inv _ t s _ Hinv Hr) as [H _].
      by rewrite E1 in H. }
    assert (Hne : ∀ k' t', (k', t') ∈ rest → tok_var t' ≠ tok_var t).
    { intros k' t' Hin Heq. destruct (Hall k' t') as (Hr' & _); [by right|].
      rewrite Heq in Hr'. apply Hk1.
      rewrite (registered_inj p s k k' _ Hinv Hr Hr').
      apply list_elem_of_fmap. by exists (k', t'). }
    assert (Hstep : ∀ var, var ≠ tok_var t → ctx s1 !! var = ctx s !! var).
    { intros var Hvar. rewrite Hc1. unfold restore.
      destruct (tok_old t);
        [by rewrite lookup_insert_ne|by rewrite lookup_delete_ne]. }
    destruct (IH s1 Hinv1 Hk Hid) as (s' & E & Hr' & Hold & Hframe).
    { intros k' t' Hin. destruct (Hall k' t') as (H1 & H2 & H3); [by right|].
      rewrite Hr1, Hu1, (Hstep _ (Hne _ _ Hin)). split_and!; auto.
      rewrite not_elem_of_union, not_elem_of_singleton. split; [|done].
      intros Heq. apply Hid1. simpl. rewrite <- Heq.
      apply list_elem_of_fmap. exists t'. split; [done|].
      apply list_elem_of_fmap. by exists (k', t'). }
    exists s'. rewrite (reset_items_cons_Some _ _ _ _ _ _ Hr).
    rewrite (bind_Ret _ _ _ _ _ E1). split_and!; auto.
    + congruence.
    + intros k' t' Hin. apply elem_of_cons in Hin as [[= -> ->]|Hin]; [|eauto].
      rewrite Hframe.
      * rewrite Hc1. unfold restore.
        destruct (tok_old t);
          [by rewrite lookup_insert_eq|by rewrite lookup_delete_eq].
      * intros k' Hk' Hl. rewrite Hr1 in Hl. apply Hk1.
        by rewrite (registered_inj p s k k' _ Hinv Hr Hl).
    + intros var Hvar. rewrite Hframe.
      * apply Hstep. intros ->. apply (Hvar k); [by left|done].
      * intros k' Hk'. rewrite Hr1. apply Hvar. by right.
Qed.

(** ** [get_contextvars] *)

(** The loop over any list of variables and values: where a binding of
    the result comes from. *)
Lemma collect_lookup_Some p l key v :
  foldl (collect_var p) ∅ l !! key = Some v →
  ∃ var, (var, v) ∈ l ∧ is_Ellipsis v = false ∧ cv_name var = p +:+ key.
Proof.
  induction l as [|[var' v'] l IH] using rev_ind.
  - simpl. by rewrite lookup_empty.
  - rewrite foldl_snoc. unfold collect_var at 1. simpl.
    destruct (startswith p (cv_name var')) eqn:Hs;
      destruct (is_Ellipsis v') eqn:He; simpl;
      try (intros Hl; destruct (IH Hl) as (var & Hin & Hrest);
           exists var; split; [apply elem_of_app; by left|done]).
    rewrite lookup_insert. case_decide as Hk.
    + intros [= <-]. exists var'. split_and!; auto.
      * apply elem_of_app. right. by left.
      * rewrite <- Hk. by apply startswith_split.
    + intros Hl. destruct (IH Hl) as (var & Hin & Hrest).
      exists var. split; [apply elem_of_app; by left|done].
Qed.

(** Every variable with a value other than [Ellipsis] and a name that
    starts with the prefix puts its key into the result. *)
Lemma collect_is_Some p l var v :
  (var, v) ∈ l → startswith p (cv_name var) = true → is_Ellipsis v = false →
  is_Some (foldl (collect_var p) ∅ l
             !! string_drop (String.length p) (cv_name var)).
Proof.
  intros Hin Hs He. induction l as [|[var' v'] l IH] using rev_ind.
  - by apply elem_of_nil in Hin.
  - rewrite foldl_snoc. unfold collect_var at 1. simpl.
    apply elem_of_app in Hin as [Hin|Hin].
    + destruct (_ && _); [|by apply IH].
      rewrite lookup_insert. case_decide; [by eexists|by apply IH].
    + apply list_elem_of_singleton in Hin. injection Hin as <- <-.
      rewrite Hs, He. simpl. rewrite lookup_insert_eq. by eexists.
Qed.

(** When all the variables of one name that are shown agree on the value,
    the result has that value, in whatever order they come. *)
Lemma collect_lookup_agree p l var v :
  (var, v) ∈ l → startswith p (cv_name var) = true → is_Ellipsis v = false →
  (∀ var' v', (var', v') ∈ l → cv_name var' = cv_name var →
              is_Ellipsis v' = false → v' = v) →
  foldl (collect_var p) ∅ l !! string_drop (String.length p) (cv_name var)
  = Some v.
Proof.
  intros Hin Hs He. induction l as [|[var' v'] l IH] using rev_ind;
    intros Hagree.
  - by apply elem_of_nil in Hin.
  - rewrite foldl_snoc. unfold collect_var at 1. simpl.
    assert (Hl : (var, v) ∈ l →
                 foldl (collect_var p) ∅ l
                   !! string_drop (String.length p) (cv_name var) = Some v).
    { intros Hin'. apply IH; [done|]. intros var'' v'' Hin''.
      apply Hagree. apply elem_of_app. by left. }
    destruct (startswith p (cv_name var')) eqn:Hs';
      destruct (is_Ellipsis v') eqn:He'; simpl.
    2: { rewrite lookup_insert. case_decide as Hk.
         - f_equal. apply (Hagree var' v'); [|  |done].
           + apply elem_of_app. right. by left.
           + by apply (startswith_drop_inj p).
         - apply Hl. apply elem_of_app in Hin as [Hin|Hin]; [done|].
           apply list_elem_of_singleton in Hin. injection Hin as <- <-.
           done. }
    all: apply Hl; apply elem_of_app in Hin as [Hin|Hin]; [done|];
      apply list_elem_of_singleton in Hin; injection Hin as <- <-;
      congruence.
Qed.

Section reads.

Variable ctx_iter : gmap ContextVar value → list (ContextVar * value).

(** All that is assumed of the iteration: each variable that has a value
    comes once, with its value. *)
Hypothesis ctx_iter_perm : ∀ c, ctx_iter c ≡ₚ map_to_list c.

Lemma elem_of_ctx_iter c var v : (var, v) ∈ ctx_iter c ↔ c !! var = Some v.
Proof. rewrite ctx_iter_perm. apply elem_of_map_to_list. Qed.

Lemma get_contextvars_Some p s key v :
  get_contextvars ctx_iter p s !! key = Some v →
  ∃ var, ctx s !! var = Some v ∧ is_Ellipsis v = false
         ∧ cv_name var = p +:+ key.
Proof.
  intros Hl. destruct (collect_lookup_Some _ _ _ _ Hl) as (var & Hin & Hrest).
  exists var. by rewrite <- elem_of_ctx_iter.
Qed.

(** Under [inv] and [owned] a read shows, for each key, the value of the
    registry's variable. *)
Lemma get_contextvars_owned p s key :
  inv s → owned p s →
  get_contextvars ctx_iter p s !! key = shown (reg_value s (p +:+ key)).
Proof.
  intros Hinv Hown.
  destruct (shown (reg_value s (p +:+ key))) as [v|] eqn:Hv.
  - unfold shown, reg_value in Hv.
    destruct (registry s !! (p +:+ key)) as [var|] eqn:Hr; [simpl in Hv|done].
    destruct (ctx s !! var) as [v'|] eqn:Hc; [simpl in Hv|done].
    destruct (is_Ellipsis v') eqn:He; [done|]. injection Hv as ->.
    pose proof (inv_name s Hinv _ _ Hr) as Hname.
    rewrite <- (string_drop_app p key), <- Hname.
    apply collect_lookup_agree; auto.
    + by apply elem_of_ctx_iter.
    + rewrite Hname. apply startswith_app.
    + intros var' v' Hin Hn He'. apply elem_of_ctx_iter in Hin.
      assert (registry s !! cv_name var' = Some var') as Hr'.
      { apply (Hown _ _ Hin). rewrite Hn, Hname. apply startswith_app. }
      rewrite Hn, Hname, Hr in Hr'. injection Hr' as <-. congruence.
  - destruct (get_contextvars ctx_iter p s !! key) as [v|] eqn:Hl; [|done].
    destruct (get_contextvars_Some _ _ _ _ Hl) as (var & Hc & He & Hn).
    assert (registry s !! cv_name var = Some var) as Hr.
    { apply (Hown _ _ Hc). rewrite Hn. apply startswith_app. }
    rewrite Hn in Hr. unfold shown, reg_value in Hv.
    rewrite Hr in Hv. simpl in Hv. rewrite Hc in Hv. simpl in Hv.
    by rewrite He in Hv.
Qed.

(** ** [clear_contextvars] *)

Lemma clear_fold_inv p l s :
  inv s → (∀ var v, (var, v) ∈ l → is_Some (ctx s !! var)) →
  inv (foldl (clear_var p) s l)
  ∧ registry (foldl (clear_var p) s l) = registry s
  ∧ ∀ var, is_Some (ctx (foldl (clear_var p) s l) !! var)
           ↔ is_Some (ctx s !! var).
Proof.
  intros Hinv. induction l as [|[var' v'] l IH] using rev_ind; intros Hl.
  - done.
  - rewrite foldl_snoc. destruct IH as ([Hn Hi Hc Hp] & Hr & Hd).
    { intros var v Hin. apply (Hl var v). apply elem_of_app. by left. }
    assert (is_Some (ctx s !! var')) as Hv0.
    { apply (Hl var' v'). apply elem_of_app. right. by left. }
    assert (is_Some (ctx (foldl (clear_var p) s l) !! var')) as [v1 Hv1]
      by (by apply Hd).
    remember (foldl (clear_var p) s l) as s1 eqn:Es1. clear Es1.
    unfold clear_var. simpl. destruct (startswith p (cv_name var')); [|done].
    split_and!; [split; simpl; auto|done|].
    + intros var v. rewrite lookup_insert. case_decide; [|by eauto].
      subst. intros _. by apply (Hc _ _ Hv1).
    + intros var. simpl. rewrite lookup_insert. case_decide; [|by auto].
      subst. split; [done|by eexists].
Qed.

Lemma clear_contextvars_inv p s :
  inv s →
  inv (clear_contextvars ctx_iter p s)
  ∧ ∀ q, owned q s → owned q (clear_contextvars ctx_iter p s).
Proof.
  intros Hinv. unfold clear_contextvars.
  destruct (clear_fold_inv p (ctx_iter (ctx s)) s Hinv) as (H1 & H2 & H3).
  { intros var v Hin. apply elem_of_ctx_iter in Hin. by eexists. }
  split; [done|]. intros q Hq var v Hc Hs. rewrite H2.
  destruct (proj1 (H3 var)) as [v0 Hv0]; [by eexists|]. by apply (Hq var v0).
Qed.

(** ** What a block under [with] may do *)

Lemma keeps_bind p {A B} (m : M A) (f : A → M B) :
  keeps p m → (∀ a, keeps p (f a)) → keeps p (bind m f).
Proof.
  intros Hm Hf s Hinv Hown. unfold bind.
  destruct (Hm s Hinv Hown) as [H1 H2].
  destruct (m s) as [a s1|e s1]; [by apply Hf|done].
Qed.

Lemma keeps_try_finally p {A} (m : M A) (c : M unit) :
  keeps p m → keeps p c → keeps p (try_finally m c).
Proof.
  intros Hm Hc s Hinv Hown. unfold try_finally.
  destruct (Hm s Hinv Hown) as [H1 H2].
  destruct (m s) as [a s1|e s1]; simpl in *;
    destruct (Hc s1 H1 H2) as [H3 H4]; by destruct (c s1) as [[] s2|e' s2].
Qed.

Lemma keeps_try_except p {A} (m : M A) (h : exn → M A) :
  keeps p m → (∀ e, keeps p (h e)) → keeps p (try_except m h).
Proof.
  intros Hm Hh s Hinv Hown. unfold try_except.
  destruct (Hm s Hinv Hown) as [H1 H2].
  destruct (m s) as [a s1|e s1]; [done|by apply Hh].
Qed.

Lemma keeps_gets p {A} (f : State → A) : keeps p (gets f).
Proof. by intros s Hinv Hown. Qed.

Lemma keeps_set_contextvars p q kwargs : keeps p (set_contextvars q kwargs).
Proof.
  intros s Hinv Hown. destruct (decide ("prefix" ∈ kwargs.*1)) as [Hk|Hk].
  - by rewrite set_contextvars_clash.
  - rewrite set_contextvars_unfold by done.
    destruct (set_items_inv q kwargs s Hinv) as (? & ? & -> & H1 & _ & H2).
    split; [done|by apply H2].
Qed.

Lemma keeps_reset_contextvars p q kwargs : keeps p (reset_contextvars q kwargs).
Proof.
  intros s Hinv Hown. destruct (decide ("prefix" ∈ kwargs.*1)) as [Hk|Hk].
  - unfold reset_contextvars, bind, bind_kwargs. by rewrite decide_True.
  - rewrite reset_contextvars_unfold by done.
    destruct (reset_items_inv q kwargs s Hinv) as [H1 H2]. auto.
Qed.

Lemma keeps_unset_contextvars p q keys :
  keeps p (modify (unset_contextvars q keys)).
Proof.
  intros s Hinv Hown. simpl.
  destruct (unset_contextvars_inv q keys s Hinv) as [H1 H2]. auto.
Qed.

Lemma keeps_clear_contextvars p q :
  keeps p (modify (clear_contextvars ctx_iter q)).
Proof.
  intros s Hinv Hown. simpl.
  destruct (clear_contextvars_inv q s Hinv) as [H1 H2]. auto.
Qed.

Lemma keeps_set_current_node p node :
  startswith p "current_node" = false → keeps p (set_current_node node).
Proof.
  intros Hp s [Hn Hi Hc Hpos] Hown. simpl. split; [split; simpl; auto|].
  - intros var v. rewrite lookup_insert. case_decide; [|by eauto].
    subst. done.
  - intros var v. simpl. rewrite lookup_insert. case_decide; [|by apply Hown].
    subst. simpl. by rewrite Hp.
Qed.

Lemma keeps_get_current_node p : keeps p get_current_node.
Proof.
  intros s Hinv Hown. unfold get_current_node, var_get.
  by destruct (ctx s !! _CURRENT_NODE).
Qed.

Lemma keeps_scope_exit p q kwargs saved :
  keeps p (scope_exit q kwargs saved).
Proof.
  apply keeps_bind; [apply keeps_unset_contextvars|]. intros _.
  apply keeps_bind; [apply keeps_set_contextvars|]. by intros _ s.
Qed.

Lemma keeps_scoped_contextvars p q {A} kwargs (body : M A) :
  keeps p body → keeps p (scoped_contextvars ctx_iter q kwargs body).
Proof.
  intros Hb. apply keeps_bind; [apply keeps_gets|]. intros context.
  apply keeps_bind; [apply keeps_set_contextvars|]. intros _.
  apply keeps_try_finally; [done|apply keeps_scope_exit].
Qed.

(** Whatever a caller builds from the module's functions keeps them, for
    a prefix that is no initial segment of [current_node]. *)
Lemma api_keeps p nodes {A} (m : M A) :
  startswith p "current_node" = false → api ctx_iter nodes m → keeps p m.
Proof.
  intros Hp Hm. induction Hm.
  - by intros s.
  - by intros s.
  - by apply keeps_bind.
  - by apply keeps_try_except.
  - by apply keeps_try_finally.
  - apply keeps_gets.
  - apply keeps_set_contextvars.
  - apply keeps_reset_contextvars.
  - apply keeps_unset_contextvars.
  - apply keeps_clear_contextvars.
  - by apply keeps_set_current_node.
  - apply keeps_get_current_node.
Qed.

(** So the invariants hold in every state that calls of the module's
    functions reach from [initial_state]. *)
Lemma api_reaches p nodes {A} (m : M A) :
  startswith p "current_node" = false → api ctx_iter nodes m →
  inv (outcome_state (m initial_state))
  ∧ owned p (outcome_state (m initial_state)).
Proof.
  intros Hp Hm. apply (api_keeps p nodes m Hp Hm); [apply inv_initial|].
  apply owned_initial.
Qed.

Lemma api_scoped_contextvars p nodes {A} kwargs (body : M A) :
  api ctx_iter nodes body →
  api ctx_iter nodes (scoped_contextvars ctx_iter p kwargs body).
Proof.
  intros Hb. unfold scoped_contextvars, scope_exit.
  apply api_bind; [apply api_gets|]. intros context.
  apply api_bind; [apply api_set_contextvars|]. intros _.
  apply api_try_finally; [done|].
  apply api_bind; [apply api_unset_contextvars|]. intros _.
  apply api_bind; [apply api_set_contextvars|]. intros _. apply api_ret.
Qed.

(** ** Reading after writing *)

Lemma not_elem_of_prefixed p key (keys : list string) :
  key ∉ keys → p +:+ key ∉ (String.append p <$> keys).
Proof.
  intros Hk Hin. apply list_elem_of_fmap in Hin as (k & Heq & Hin).
  apply string_app_inj in Heq. by subst.
Qed.

Lemma get_after_set p kwargs s :
  inv s → owned p s → kwargs_ok kwargs →
  ∃ tokens s',
    set_contextvars p kwargs s = Ret tokens s'
    ∧ inv s' ∧ owned p s'
    ∧ ∀ key, get_contextvars ctx_iter p s' !! key
             = match (list_to_map kwargs : gmap string value) !! key with
               | Some v => shown (Some v)
               | None => get_contextvars ctx_iter p s !! key
               end.
Proof.
  intros Hinv Hown [Hnd Hpre]. rewrite set_contextvars_unfold by done.
  destruct (set_items_inv p kwargs s Hinv) as (tokens & s' & E & Hinv' & _ & Ho).
  exists tokens, s'. split_and!; auto. intros key.
  rewrite !get_contextvars_owned by auto.
  destruct (list_to_map kwargs !! key) as [v|] eqn:Hl.
  - apply elem_of_list_to_map in Hl; [|done].
    by rewrite (set_items_reg_value_in _ _ _ _ _ _ _ Hinv Hnd E Hl).
  - apply not_elem_of_list_to_map in Hl.
    rewrite (set_items_reg_value_out _ _ _ _ _ _ Hinv Hnd E); [done|].
    by apply not_elem_of_prefixed.
Qed.

(** A value that a read shows is not [Ellipsis]. *)
Lemma shown_get_contextvars p s key :
  shown (get_contextvars ctx_iter p s !! key)
  = get_contextvars ctx_iter p s !! key.
Proof.
  destruct (get_contextvars ctx_iter p s !! key) as [v|] eqn:Hl; [|done].
  destruct (get_contextvars_Some _ _ _ _ Hl) as (_ & _ & He & _).
  simpl. by rewrite He.
Qed.

(** ** The saved entries *)

Lemma restrict_elem (c : gmap string value) keys k v :
  (k, v) ∈ restrict c keys ↔ k ∈ keys ∧ c !! k = Some v.
Proof.
  unfold restrict. rewrite list_elem_of_omap. split.
  - intros (k' & Hin & Heq). destruct (c !! k') as [v'|] eqn:Hc; [|done].
    injection Heq as -> ->. done.
  - intros [Hin Hc]. exists k. by rewrite Hc.
Qed.

Lemma restrict_keys (c : gmap string value) keys k :
  k ∈ (restrict c keys).*1 ↔ k ∈ keys ∧ is_Some (c !! k).
Proof.
  rewrite list_elem_of_fmap. split.
  - intros ([k' v] & -> & Hin). apply restrict_elem in Hin as [Hin Hc].
    split; [done|by eexists].
  - intros [Hin [v Hc]]. exists (k, v). split; [done|].
    by apply restrict_elem.
Qed.

Lemma restrict_cons (c : gmap string value) k keys :
  restrict c (k :: keys)
  = match c !! k with
    | Some v => (k, v) :: restrict c keys
    | None => restrict c keys
    end.
Proof. unfold restrict. simpl. by destruct (c !! k). Qed.

Lemma restrict_NoDup (c : gmap string value) keys :
  NoDup keys → NoDup (restrict c keys).*1.
Proof.
  induction 1 as [|k keys Hk Hnd IH]; [constructor|].
  rewrite restrict_cons. destruct (c !! k) as [v|]; [|done].
  rewrite fmap_cons. constructor; [|done].
  rewrite restrict_keys. tauto.
Qed.

Lemma restrict_lookup (c : gmap string value) keys k :
  NoDup keys → k ∈ keys →
  (list_to_map (restrict c keys) : gmap string value) !! k = c !! k.
Proof.
  intros Hnd Hin. destruct (c !! k) as [v|] eqn:Hc.
  - apply elem_of_list_to_map; [by apply restrict_NoDup|].
    by apply restrict_elem.
  - apply not_elem_of_list_to_map. rewrite restrict_keys, Hc.
    intros [_ []]. done.
Qed.

Lemma restrict_kwargs_ok (c : gmap string value) (kwargs : list (string * value)) :
  kwargs_ok kwargs → kwargs_ok (restrict c kwargs.*1).
Proof.
  intros [Hnd Hpre]. split; [by apply restrict_NoDup|].
  rewrite restrict_keys. tauto.
Qed.

(** ** The scope *)

Lemma get_after_unset p keys s key :
  inv s → owned p s →
  get_contextvars ctx_iter p (unset_contextvars p keys s) !! key
  = if decide (key ∈ keys) then None
    else get_contextvars ctx_iter p s !! key.
Proof.
  intros Hinv Hown.
  destruct (unset_contextvars_inv p keys s Hinv) as [Hinv' Hown'].
  rewrite !get_contextvars_owned by auto. unfold reg_value.
  rewrite unset_contextvars_registry.
  destruct (registry s !! (p +:+ key)) as [var|] eqn:Hr;
    [simpl|by case_decide].
  case_decide as Hk.
  - by rewrite (unset_contextvars_in _ _ _ _ _ Hk Hr).
  - rewrite unset_contextvars_out; [done|]. intros k Hin Hl. apply Hk.
    by rewrite (registered_inj p s key k var Hinv Hr Hl).
Qed.

(** Leaving: the keys of the scope are unset, then the saved ones are
    written back. *)
Lemma scope_exit_spec p kwargs saved s :
  inv s → owned p s → kwargs_ok saved →
  ∃ s', scope_exit p kwargs saved s = Ret () s'
        ∧ inv s' ∧ owned p s'
        ∧ ∀ key, get_contextvars ctx_iter p s' !! key
                 = match (list_to_map saved : gmap string value) !! key with
                   | Some v => shown (Some v)
                   | None => if decide (key ∈ kwargs.*1) then None
                             else get_contextvars ctx_iter p s !! key
                   end.
Proof.
  intros Hinv Hown Hok.
  destruct (unset_contextvars_inv p kwargs.*1 s Hinv) as [Hinv1 Hown1].
  destruct (get_after_set p saved _ Hinv1 (Hown1 p Hown) Hok)
    as (tokens & s' & E & Hinv' & Hown' & Hget).
  exists s'. unfold scope_exit, bind, modify. rewrite E.
  split_and!; auto. intros key. rewrite Hget.
  destruct (list_to_map saved !! key); [done|].
  by apply get_after_unset.
Qed.

(** Entering, running the block and leaving: the call ends as the block
    does, in the state the leaving step makes of the block's last state;
    there a key of the scope reads as before the call and any other key
    as the block left it. *)
Lemma scoped_spec p kwargs {A} (body : M A) s :
  inv s → owned p s → kwargs_ok kwargs → keeps p body →
  ∃ tokens s1 s3,
    set_contextvars p kwargs s = Ret tokens s1
    ∧ inv s1 ∧ owned p s1
    ∧ scope_exit p kwargs
        (restrict (get_contextvars ctx_iter p s) kwargs.*1)
        (outcome_state (body s1)) = Ret () s3
    ∧ scoped_contextvars ctx_iter p kwargs body s
      = match body s1 with
        | Ret a _ => Ret a s3
        | Raise e _ => Raise e s3
        end
    ∧ inv s3 ∧ owned p s3
    ∧ (∀ key, key ∈ kwargs.*1 →
              get_contextvars ctx_iter p s3 !! key
              = get_contextvars ctx_iter p s !! key)
    ∧ (∀ key, key ∉ kwargs.*1 →
              get_contextvars ctx_iter p s3 !! key
              = get_contextvars ctx_iter p (outcome_state (body s1)) !! key).
Proof.
  intros Hinv Hown Hok Hbody.
  destruct (get_after_set p kwargs s Hinv Hown Hok)
    as (tokens & s1 & E1 & Hinv1 & Hown1 & _).
  destruct (Hbody s1 Hinv1 Hown1) as [Hinv2 Hown2].
  pose proof (restrict_kwargs_ok (get_contextvars ctx_iter p s) kwargs Hok)
    as Hsaved.
  destruct (scope_exit_spec p kwargs _ _ Hinv2 Hown2 Hsaved)
    as (s3 & E3 & Hinv3 & Hown3 & Hget).
  exists tokens, s1, s3. split_and!; auto.
  - unfold scoped_contextvars, bind at 1, gets, bind. rewrite E1.
    unfold try_finally. destruct (body s1) as [a s2|e s2]; simpl in E3;
      by rewrite E3.
  - intros key Hk. rewrite Hget, restrict_lookup by (done || apply Hok).
    destruct (get_contextvars ctx_iter p s !! key) eqn:Hl;
      [|by rewrite decide_True].
    by rewrite <- Hl, shown_get_contextvars.
  - intros key Hk. rewrite Hget.
    rewrite (proj1 (not_elem_of_list_to_map _ _)).
    + by rewrite decide_False.
    + rewrite restrict_keys. tauto.
Qed.

Lemma read_key_Some p x s v :
  get_contextvars ctx_iter p s !! x = Some v →
  read_key ctx_iter p x s = Ret v s.
Proof. intros Hl. unfold read_key, bind, gets, getitem. by rewrite Hl. Qed.

Lemma keeps_read_key p q x : keeps p (read_key ctx_iter q x).
Proof.
  intros s Hinv Hown. unfold read_key, bind, gets, getitem.
  by destruct (get_contextvars ctx_iter q s !! x).
Qed.

(** ** The scope restores what it covered *)

(** C1.  Let [x] be a key of the scope's entries that reads as [v0] under
    the prefix before the call.  Whatever a block built from the module's
    functions did to it, and however the block ended, [x] reads as [v0]
    again in the state the call leaves.  The prefix is any that is no
    initial segment of [current_node]: [log_] and [task_], the prefixes of
    the two context managers of the source, are such. *)
Theorem scope_restores_present p kwargs {A} (body : M A) s x v0 v1 :
  startswith p "current_node" = false →
  inv s → owned p s → kwargs_ok kwargs → (x, v1) ∈ kwargs →
  api ctx_iter true body →
  get_contextvars ctx_iter p s !! x = Some v0 →
  get_contextvars ctx_iter p
    (outcome_state (scoped_contextvars ctx_iter p kwargs body s)) !! x
  = Some v0.
Proof.
  intros Hp Hinv Hown Hok Hin Hapi Hx.
  destruct (scoped_spec p kwargs body s Hinv Hown Hok (api_keeps p true body Hp Hapi))
    as (tokens & s1 & s3 & _ & _ & _ & _ & -> & _ & _ & Hkeys & _).
  assert (x ∈ kwargs.*1) as Hk.
  { apply list_elem_of_fmap. by exists (x, v1). }
  rewrite <- Hx, <- (Hkeys x Hk). by destruct (body s1).
Qed.

(** C2.  Let [x] be a key of the scope's entries that is not visible
    under the prefix before the call.  Entering succeeds; the leaving
    step runs on the state the block ends in, whether the block returns
    or raises; the call returns what the block returned, or raises the
    very exception the block raised; and [x] is absent afterwards. *)
Theorem scope_restores_absent p kwargs {A} (body : M A) s x v :
  startswith p "current_node" = false →
  inv s → owned p s → kwargs_ok kwargs → (x, v) ∈ kwargs →
  api ctx_iter true body →
  get_contextvars ctx_iter p s !! x = None →
  ∃ tokens s1 s3,
    set_contextvars p kwargs s = Ret tokens s1
    ∧ scope_exit p kwargs (restrict (get_contextvars ctx_iter p s) kwargs.*1)
        (outcome_state (body s1)) = Ret () s3
    ∧ scoped_contextvars ctx_iter p kwargs body s
      = match body s1 with
        | Ret a _ => Ret a s3
        | Raise e _ => Raise e s3
        end
    ∧ get_contextvars ctx_iter p s3 !! x = None.
Proof.
  intros Hp Hinv Hown Hok Hin Hapi Hx.
  destruct (scoped_spec p kwargs body s Hinv Hown Hok (api_keeps p true body Hp Hapi))
    as (tokens & s1 & s3 & E1 & _ & _ & E3 & E & _ & _ & Hkeys & _).
  exists tokens, s1, s3. split_and!; auto.
  rewrite <- Hx. apply Hkeys. apply list_elem_of_fmap. by exists (x, v).
Qed.

(** C8.  A scope that binds [x] to 1 around a scope that binds [x] to 2:
    the read inside the inner scope yields 2, a read after the inner
    scope has left, still inside the outer one, yields 1, and after both
    have left [x] reads as before the outer scope, absent if it was
    absent and with its old value if it had one. *)
Theorem nested_scopes p x s :
  inv s → owned p s → x ≠ "prefix" →
  ∃ s',
    scoped_contextvars ctx_iter p [(x, PyInt 1)]
      (inner <- scoped_contextvars ctx_iter p [(x, PyInt 2)]
                  (read_key ctx_iter p x) ;;
       after <- read_key ctx_iter p x ;;
       ret (inner, after)) s
    = Ret (PyInt 2, PyInt 1) s'
    ∧ get_contextvars ctx_iter p s' !! x = get_contextvars ctx_iter p s !! x.
Proof.
  intros Hinv Hown Hx.
  assert (Hok : ∀ v : value, kwargs_ok [(x, v)]).
  { intros v. split; simpl; [apply NoDup_singleton|].
    intros Hq%list_elem_of_singleton. congruence. }
  assert (Hin : ∀ v : value, x ∈ [(x, v)].*1) by (intros v; by left).
  set (block := (inner <- scoped_contextvars ctx_iter p [(x, PyInt 2)]
                            (read_key ctx_iter p x) ;;
                 after <- read_key ctx_iter p x ;; ret (inner, after))).
  assert (Hkeeps : keeps p block).
  { apply keeps_bind;
      [apply keeps_scoped_contextvars, keeps_read_key|].
    intros inner. apply keeps_bind; [apply keeps_read_key|]. by intros after s0. }
  destruct (scoped_spec p [(x, PyInt 1)] block s Hinv Hown (Hok _) Hkeeps)
    as (tokens & s1 & s3 & E1 & Hinv1 & Hown1 & _ & E & _ & _ & Hkeys & _).
  destruct (get_after_set p [(x, PyInt 1)] s Hinv Hown (Hok _))
    as (? & ? & E1' & _ & _ & Hget1).
  rewrite E1 in E1'. injection E1' as <- <-.
  assert (Hx1 : get_contextvars ctx_iter p s1 !! x = Some (PyInt 1)).
  { rewrite Hget1. simpl. by rewrite lookup_insert_eq. }
  destruct (scoped_spec p [(x, PyInt 2)] (read_key ctx_iter p x) s1 Hinv1 Hown1 (Hok _)
              (keeps_read_key p p x))
    as (tokens2 & s2 & s4 & E2 & Hinv2 & Hown2 & _ & Ei & _ & _ & Hkeys2 & _).
  destruct (get_after_set p [(x, PyInt 2)] s1 Hinv1 Hown1 (Hok _))
    as (? & ? & E2' & _ & _ & Hget2).
  rewrite E2 in E2'. injection E2' as <- <-.
  assert (Hx2 : get_contextvars ctx_iter p s2 !! x = Some (PyInt 2)).
  { rewrite Hget2. simpl. by rewrite lookup_insert_eq. }
  rewrite (read_key_Some _ _ _ _ Hx2) in Ei.
  assert (Hx4 : get_contextvars ctx_iter p s4 !! x = Some (PyInt 1)).
  { rewrite <- Hx1. apply Hkeys2, Hin. }
  assert (Hblock : block s1 = Ret (PyInt 2, PyInt 1) s4).
  { unfold block, bind at 1. rewrite Ei. unfold bind.
    by rewrite (read_key_Some _ _ _ _ Hx4). }
  rewrite Hblock in E. exists s3. split; [done|]. apply Hkeys, Hin.
Qed.

(** ** Writing, then reading or undoing *)

(** C3, amended.  In a state where the variables named under the prefix
    are the registry's, [set_contextvars] returns, and the read after it
    has the entries whose value is not [Ellipsis], together with the
    earlier bindings of the keys that are not among the entries: an entry
    given as [Ellipsis] is written, and reads as unset. *)
Theorem set_then_read p kwargs s :
  inv s → owned p s → kwargs_ok kwargs →
  ∃ tokens s',
    set_contextvars p kwargs s = Ret tokens s'
    ∧ get_contextvars ctx_iter p s'
      = filter (λ kv, is_Ellipsis kv.2 = false) (list_to_map kwargs)
        ∪ filter (λ kv, kv.1 ∉ kwargs.*1) (get_contextvars ctx_iter p s).
Proof.
  intros Hinv Hown Hok.
  destruct (get_after_set p kwargs s Hinv Hown Hok)
    as (tokens & s' & E & _ & _ & Hget).
  exists tokens, s'. split; [done|]. apply map_eq. intros key.
  rewrite Hget.
  destruct (list_to_map kwargs !! key) as [v|] eqn:Hl.
  - simpl. destruct (is_Ellipsis v) eqn:He.
    + symmetry. apply lookup_union_None. split.
      * apply map_lookup_filter_None. right. intros v' Hv'. simpl.
        congruence.
      * apply map_lookup_filter_None. right. intros v' _. simpl.
        intros Hk. apply Hk. apply list_elem_of_fmap. exists (key, v).
        split; [done|]. by apply elem_of_list_to_map_2.
    + symmetry. apply lookup_union_Some_raw. left.
      by apply map_lookup_filter_Some.
  - rewrite lookup_union_r.
    + destruct (get_contextvars ctx_iter p s !! key) as [v|] eqn:Hg.
      * symmetry. apply map_lookup_filter_Some. split; [done|]. simpl.
        by apply not_elem_of_list_to_map.
      * symmetry. apply map_lookup_filter_None. by left.
    + apply map_lookup_filter_None. by left.
Qed.

(** C4.  [reset_contextvars] on the tokens that the [set_contextvars]
    just before it returned succeeds and puts the whole context back:
    every variable has the value, or the absence of one, that it had
    before the write, so every read, under any prefix and for every key,
    is as before. *)
Theorem reset_after_set p kwargs s :
  inv s → tokens_ok s → kwargs_ok kwargs →
  ∃ tokens s1 s2,
    set_contextvars p kwargs s = Ret tokens s1
    ∧ reset_contextvars p tokens s1 = Ret () s2
    ∧ ctx s2 = ctx s
    ∧ ∀ q, get_contextvars ctx_iter q s2 = get_contextvars ctx_iter q s.
Proof.
  intros Hinv Htok [Hnd Hpre].
  destruct (set_items_spec p kwargs s Hinv Hnd)
    as (tokens & s1 & E & Hinv1 & _ & _ & Hset & Hframe & Hu & Hnt & Hkeys
        & Htoks & Hids).
  assert (Hall : ∀ k t, (k, t) ∈ tokens →
            registry s1 !! (p +:+ k) = Some (tok_var t)
            ∧ (tok_id t ∉ used_tokens s1)
            ∧ is_Some (ctx s1 !! tok_var t)).
  { intros k t Hin. destruct (Htoks k t Hin) as [Hr _]. split_and!; [done| |].
    - rewrite Hu. intros Hused. apply Htok in Hused.
      assert (tok_id t ∈ seq (next_token s) (length kwargs)) as Hseq.
      { rewrite <- Hids. apply list_elem_of_fmap. exists t. split; [done|].
        apply list_elem_of_fmap. by exists (k, t). }
      apply elem_of_seq in Hseq. lia.
    - assert (k ∈ kwargs.*1) as Hk.
      { rewrite <- Hkeys. apply list_elem_of_fmap. by exists (k, t). }
      apply list_elem_of_fmap in Hk as ([k' v] & -> & Hin').
      destruct (Hset _ _ Hin') as (var & Hr' & Hc). simpl in Hr, Hr'.
      rewrite Hr in Hr'. injection Hr' as <-. by eexists. }
  destruct (reset_items_restore p tokens s1 Hinv1) as (s2 & E2 & Hr2 & Hold & Hfr2);
    [by rewrite Hkeys|rewrite Hids; apply NoDup_seq|done|].
  assert (Hctx : ctx s2 = ctx s).
  { apply map_eq. intros var.
    destruct (decide (Exists (λ k, registry s1 !! (p +:+ k) = Some var)
                             tokens.*1)) as [Hex|Hex].
    - apply Exists_exists in Hex as (k & Hk & Hr).
      apply list_elem_of_fmap in Hk as ([k' t] & -> & Hin). simpl in Hr.
      destruct (Htoks _ _ Hin) as [Hr' Ho]. rewrite Hr in Hr'.
      injection Hr' as ->. rewrite <- Ho. by apply (Hold k').
    - assert (∀ k, k ∈ tokens.*1 → registry s1 !! (p +:+ k) ≠ Some var) as Hno.
      { intros k Hk Hr. apply Hex. apply Exists_exists. by exists k. }
      rewrite (Hfr2 var Hno). apply Hframe. by rewrite <- Hkeys. }
  exists tokens, s1, s2. rewrite set_contextvars_unfold by done.
  rewrite reset_contextvars_unfold by (by rewrite Hkeys).
  split_and!; auto. intros q. unfold get_contextvars. by rewrite Hctx.
Qed.

(** C5.  Unsetting the same keys a second time changes no read, under
    any prefix; and the keys that have no variable in the registry are
    passed over: the call does what it does on the registered keys
    alone. *)
Theorem unset_twice p keys s :
  (∀ q, get_contextvars ctx_iter q
          (unset_contextvars p keys (unset_contextvars p keys s))
        = get_contextvars ctx_iter q (unset_contextvars p keys s))
  ∧ unset_contextvars p keys s
    = unset_contextvars p
        (filter (λ k, is_Some (registry s !! (p +:+ k))) keys) s.
Proof.
  split.
  - intros q. unfold get_contextvars. f_equal. f_equal. apply map_eq.
    intros var.
    destruct (decide (Exists (λ k, registry s !! (p +:+ k) = Some var) keys))
      as [Hex|Hex].
    + apply Exists_exists in Hex as (k & Hk & Hr).
      rewrite (unset_contextvars_in p keys s k var Hk Hr).
      apply (unset_contextvars_in p keys _ k var Hk).
      by rewrite unset_contextvars_registry.
    + apply unset_contextvars_out. intros k Hk.
      rewrite unset_contextvars_registry. intros Hr. apply Hex.
      apply Exists_exists. by exists k.
  - revert s. induction keys as [|k keys IH]; intros s; [done|].
    rewrite filter_cons. change (unset_contextvars p (k :: keys) s)
      with (unset_contextvars p keys (unset_key p s k)).
    rewrite IH, unset_key_registry. case_decide as Hk.
    + done.
    + unfold unset_key. destruct (registry s !! (p +:+ k)); [|done].
      destruct Hk. by eexists.
Qed.

(** C10.  A read enumerates the variables of the context, whoever made
    them: each variable that holds a value other than [Ellipsis] and has
    a name starting with the prefix puts its name, less the prefix, into
    the result, with its value when no other such variable of the same
    name holds a different one; and each binding of the result comes
    from such a variable.  So after [set_current_node] with a node other
    than [Ellipsis], under any initial segment of [current_node], the
    rest of that name is a key of the result, bound to the node unless
    another variable of that name is in sight. *)
Theorem get_contextvars_sees_all p s :
  (∀ var v,
     ctx s !! var = Some v → is_Ellipsis v = false →
     startswith p (cv_name var) = true →
     is_Some (get_contextvars ctx_iter p s
                !! string_drop (String.length p) (cv_name var))
     ∧ ((∀ var' v', ctx s !! var' = Some v' → cv_name var' = cv_name var →
                    is_Ellipsis v' = false → v' = v) →
        get_contextvars ctx_iter p s
          !! string_drop (String.length p) (cv_name var) = Some v))
  ∧ (∀ key v,
       get_contextvars ctx_iter p s !! key = Some v →
       ∃ var, ctx s !! var = Some v ∧ is_Ellipsis v = false
              ∧ cv_name var = p +:+ key)
  ∧ (∀ node,
       startswith p "current_node" = true → is_Ellipsis node = false →
       ∃ s', set_current_node node s = Ret () s'
             ∧ is_Some (get_contextvars ctx_iter p s'
                          !! string_drop (String.length p) "current_node")
             ∧ ((∀ var' v', ctx s !! var' = Some v' →
                            cv_name var' = "current_node" →
                            var' ≠ _CURRENT_NODE → v' = Ellipsis) →
                get_contextvars ctx_iter p s'
                  !! string_drop (String.length p) "current_node"
                = Some node)).
Proof.
  assert (Hgen : ∀ s var v,
     ctx s !! var = Some v → is_Ellipsis v = false →
     startswith p (cv_name var) = true →
     is_Some (get_contextvars ctx_iter p s
                !! string_drop (String.length p) (cv_name var))
     ∧ ((∀ var' v', ctx s !! var' = Some v' → cv_name var' = cv_name var →
                    is_Ellipsis v' = false → v' = v) →
        get_contextvars ctx_iter p s
          !! string_drop (String.length p) (cv_name var) = Some v)).
  { intros s0 var v Hc He Hs. split.
    - apply (collect_is_Some _ _ var v); auto. by apply elem_of_ctx_iter.
    - intros Hagree. apply collect_lookup_agree; auto.
      + by apply elem_of_ctx_iter.
      + intros var' v' Hin. apply elem_of_ctx_iter in Hin. eauto. }
  split; [exact (Hgen s)|]. split; [apply get_contextvars_Some|].
  intros node Hs He.
  exists (set_state _CURRENT_NODE node s). split; [done|].
  destruct (Hgen (set_state _CURRENT_NODE node s) _CURRENT_NODE node)
    as [H1 H2]; [apply lookup_insert_eq|done|done|].
  split; [done|]. intros Hother. apply H2. intros var' v'. simpl.
  rewrite lookup_insert. case_decide; [congruence|].
  intros Hc Hn He'. rewrite (Hother var' v') in He'; auto. done.
Qed.

(** ** The current node *)

Lemma registered_not_node s n var :
  inv s → registry s !! n = Some var → var ≠ _CURRENT_NODE.
Proof.
  intros Hinv Hr ->. apply (inv_reg_id s Hinv) in Hr. simpl in Hr. lia.
Qed.





End reads.

(** ** [reset_contextvars] and the registry *)

Lemma reset_items_returns_registry p before s s1 :
  reset_items p before s = Ret () s1 → registry s1 = registry s.
Proof.
  revert s. induction before as [|[k' t'] rest IH]; intros s.
  - by intros [= ->].
  - destruct (registry s !! (p +:+ k')) as [var|] eqn:Hr.
    + rewrite (reset_items_cons_Some _ _ _ _ _ _ Hr). unfold bind.
      pose proof (var_reset_registry var t' s) as [H1 _].
      destruct (var_reset var t' s) as [[] s0|]; [|done].
      intros E. rewrite (IH _ E). done.
    + by rewrite (reset_items_cons_None _ _ _ _ _ Hr).
Qed.

(** The loop ends at the first entry whose token [var.reset] refuses,
    with the error of [var.reset], whatever comes after that entry. *)
Lemma reset_items_stops p before k t after s s1 var e s2 :
  reset_items p before s = Ret () s1 →
  registry s !! (p +:+ k) = Some var →
  var_reset var t s1 = Raise e s2 →
  reset_items p (before ++ (k, t) :: after) s = Raise e s2.
Proof.
  intros E Hr Ev. rewrite reset_items_app, (bind_Ret _ _ _ _ _ E).
  rewrite <- (reset_items_returns_registry _ _ _ _ E) in Hr.
  rewrite (reset_items_cons_Some _ _ _ _ _ _ Hr). unfold bind.
  by rewrite Ev.
Qed.

(** C6, amended.  [reset_contextvars] raises [KeyError] only for a key
    that has no variable in the registry, so never when every key has
    one; and it raises it for the first such key it reaches, that is,
    when the tokens of the entries before that key were taken back
    without an error.  A token that [var.reset] refuses stops the loop
    with the library's own error before a later key is looked up: a
    token used before with [RuntimeError], an unused token of another
    variable with [ValueError], in the state that the entries before it
    left and whatever the later keys are. *)
Theorem reset_KeyError p tokens s :
  "prefix" ∉ tokens.*1 →
  (∀ n s', reset_contextvars p tokens s = Raise (KeyError n) s' →
           ∃ k, k ∈ tokens.*1 ∧ n = p +:+ k ∧ registry s !! n = None)
  ∧ (∀ before k t after s1,
       tokens = (before ++ (k, t) :: after)%list →
       reset_contextvars p before s = Ret () s1 →
       registry s !! (p +:+ k) = None →
       reset_contextvars p tokens s = Raise (KeyError (p +:+ k)) s1)
  ∧ (∀ before k t after s1 var,
       tokens = (before ++ (k, t) :: after)%list →
       reset_contextvars p before s = Ret () s1 →
       registry s !! (p +:+ k) = Some var →
       (tok_id t ∈ used_tokens s1 →
        reset_contextvars p tokens s = Raise RuntimeError s1)
       ∧ (tok_id t ∉ used_tokens s1 → tok_var t ≠ var →
          reset_contextvars p tokens s = Raise ValueError s1)
       ∧ (∀ e s2, var_reset var t s1 = Raise e s2 →
                  reset_contextvars p tokens s = Raise e s2)).
Proof.
  intros Hpre. rewrite (reset_contextvars_unfold _ _ _ Hpre). split_and!.
  - apply reset_items_KeyError.
  - intros before k t after s1 -> E Hr.
    rewrite fmap_app, not_elem_of_app in Hpre. destruct Hpre as [Hb _].
    rewrite (reset_contextvars_unfold _ _ _ Hb) in E.
    rewrite reset_items_app. rewrite (bind_Ret _ _ _ _ _ E).
    apply reset_items_cons_None.
    by rewrite (reset_items_returns_registry _ _ _ _ E).
  - intros before k t after s1 var -> E Hr.
    rewrite fmap_app, not_elem_of_app in Hpre. destruct Hpre as [Hb _].
    rewrite (reset_contextvars_unfold _ _ _ Hb) in E.
    assert (Hstop : ∀ e s2, var_reset var t s1 = Raise e s2 →
              reset_items p (before ++ (k, t) :: after) s = Raise e s2)
      by (intros e s2; by apply reset_items_stops).
    split_and!; [| |done].
    + intros Hu. apply Hstop. unfold var_reset. by rewrite decide_True.
    + intros Hu Hv. apply Hstop. unfold var_reset.
      by rewrite decide_False, decide_False.
Qed.

(** ** Instances *)

(** A closed decidable fact, by evaluation. *)
Ltac by_decide :=
  match goal with
  | |- ?P => apply (bool_decide_unpack P); vm_compute; exact I
  end.

(** One order of iteration: that of the finite map. *)
Lemma map_to_list_iter (c : gmap ContextVar value) :
  map_to_list c ≡ₚ map_to_list c.
Proof. reflexivity. Qed.

Lemma kwargs_ok_singleton {A} (x : string) (v : A) :
  x ≠ "prefix" → kwargs_ok [(x, v)].
Proof.
  intros Hx. split; simpl; [apply NoDup_singleton|].
  intros Hq%list_elem_of_singleton. congruence.
Qed.

Lemma x0_state_inv : inv x0_state ∧ owned "log_" x0_state.
Proof.
  apply keeps_set_contextvars; [apply inv_initial|apply owned_initial].
Qed.

(** The block unsets [x] itself; the scope still puts 0 back. *)
Lemma scope_restores_present_witness :
  get_contextvars map_to_list "log_"
    (outcome_state
       (log_contextvars map_to_list [("x", PyInt 1)]
          (modify (unset_contextvars "log_" ["x"])) x0_state)) !! "x"
  = Some (PyInt 0).
Proof.
  apply (scope_restores_present map_to_list map_to_list_iter "log_"
           [("x", PyInt 1)] (modify (unset_contextvars "log_" ["x"]))
           x0_state "x" (PyInt 0) (PyInt 1)).
  - reflexivity.
  - apply x0_state_inv.
  - apply x0_state_inv.
  - by apply kwargs_ok_singleton.
  - by left.
  - apply api_unset_contextvars.
  - vm_compute. reflexivity.
Defined.

(** The block raises; the call raises the same, and [x] is gone. *)
Lemma scope_restores_absent_witness :
  ∃ tokens s1 s3,
    set_contextvars "log_" [("x", PyInt 1)] initial_state = Ret tokens s1
    ∧ scope_exit "log_" [("x", PyInt 1)]
        (restrict (get_contextvars map_to_list "log_" initial_state) ["x"])
        (outcome_state (@raise unit (UserError 7) s1)) = Ret () s3
    ∧ log_contextvars map_to_list [("x", PyInt 1)] (raise (UserError 7))
        initial_state
      = match @raise unit (UserError 7) s1 with
        | Ret a _ => Ret a s3
        | Raise e _ => Raise e s3
        end
    ∧ get_contextvars map_to_list "log_" s3 !! "x" = None.
Proof.
  apply (scope_restores_absent map_to_list map_to_list_iter "log_"
           [("x", PyInt 1)] (raise (UserError 7)) initial_state "x" (PyInt 1)).
  - reflexivity.
  - apply inv_initial.
  - apply owned_initial.
  - by apply kwargs_ok_singleton.
  - by left.
  - apply api_raise.
  - vm_compute. reflexivity.
Defined.

(** An entry given as [Ellipsis] is not in the read that follows. *)
Lemma set_then_read_counterexample :
  ¬ set_then_read_as_stated map_to_list "log_" [("x", Ellipsis)] initial_state.
Proof.
  unfold set_then_read_as_stated. intros H.
  apply (f_equal (λ m : gmap string value, m !! "x")) in H.
  vm_compute in H. discriminate H.
Qed.

Lemma set_then_read_witness :
  ∃ tokens s',
    set_contextvars "log_" [("y", PyInt 2); ("z", Ellipsis)] x0_state
    = Ret tokens s'
    ∧ get_contextvars map_to_list "log_" s'
      = filter (λ kv, is_Ellipsis kv.2 = false)
          (list_to_map [("y", PyInt 2); ("z", Ellipsis)])
        ∪ filter (λ kv, kv.1 ∉ [("y", PyInt 2); ("z", Ellipsis)].*1)
            (get_contextvars map_to_list "log_" x0_state).
Proof.
  apply (set_then_read map_to_list map_to_list_iter "log_"
           [("y", PyInt 2); ("z", Ellipsis)] x0_state).
  - apply x0_state_inv.
  - apply x0_state_inv.
  - split; by_decide.
Defined.

Lemma reset_after_set_witness :
  ∃ tokens s1 s2,
    set_contextvars "log_" [("x", PyInt 1)] x0_state = Ret tokens s1
    ∧ reset_contextvars "log_" tokens s1 = Ret () s2
    ∧ ctx s2 = ctx x0_state
    ∧ ∀ q, get_contextvars map_to_list q s2
           = get_contextvars map_to_list q x0_state.
Proof.
  apply (reset_after_set map_to_list "log_" [("x", PyInt 1)] x0_state).
  - apply x0_state_inv.
  - intros t Ht. exfalso. exact (not_elem_of_empty (C:=gset nat) t Ht).
  - by apply kwargs_ok_singleton.
Defined.

(** [log_b] was never created, yet the call fails on the used token of
    [a] first, with [RuntimeError]. *)
Lemma reset_raises_counterexample :
  ¬ reset_raises_as_stated "log_" [("a", used_token); ("b", used_token)]
      used_state.
Proof.
  unfold reset_raises_as_stated. intros H.
  destruct H as (n & s' & E).
  - exists "b". split; [by_decide|]. vm_compute. reflexivity.
  - vm_compute in E. discriminate E.
Qed.

(** [log_b] has no variable, but the used token of [a] comes first. *)
Lemma reset_KeyError_witness :
  reset_contextvars "log_" [("a", used_token); ("b", used_token)] used_state
  = Raise RuntimeError used_state.
Proof.
  assert (Hpre : "prefix" ∉ [("a", used_token); ("b", used_token)].*1)
    by by_decide.
  apply (proj1 (proj2 (proj2 (reset_KeyError "log_"
           [("a", used_token); ("b", used_token)] used_state Hpre))
           [] "a" used_token [("b", used_token)] used_state
           (mkContextVar 1 "log_a" (Some Ellipsis))
           eq_refl eq_refl eq_refl)).
  by_decide.
Defined.

Lemma nested_scopes_witness :
  ∃ s',
    log_contextvars map_to_list [("x", PyInt 1)]
      (inner <- log_contextvars map_to_list [("x", PyInt 2)]
                  (read_key map_to_list "log_" "x") ;;
       after <- read_key map_to_list "log_" "x" ;;
       ret (inner, after)) x0_state
    = Ret (PyInt 2, PyInt 1) s'
    ∧ get_contextvars map_to_list "log_" s' !! "x"
      = get_contextvars map_to_list "log_" x0_state !! "x".
Proof.
  apply (nested_scopes map_to_list map_to_list_iter "log_" "x" x0_state).
  - apply x0_state_inv.
  - apply x0_state_inv.
  - done.
Defined.

(** After [set_current_node], a read under [current_] has the key [node]. *)
Lemma get_contextvars_sees_all_witness :
  ∃ s', set_current_node (PyObj 5) initial_state = Ret () s'
        ∧ is_Some (get_contextvars map_to_list "current_" s' !! "node")
        ∧ ((∀ var' v', ctx initial_state !! var' = Some v' →
                       cv_name var' = "current_node" →
                       var' ≠ _CURRENT_NODE → v' = Ellipsis) →
           get_contextvars map_to_list "current_" s' !! "node"
           = Some (PyObj 5)).
Proof.
  apply (proj2 (proj2 (get_contextvars_sees_all map_to_list map_to_list_iter
                         "current_" initial_state)) (PyObj 5)); reflexivity.
Defined.

(** ** Runs *)

(** The run of the specification: [request_id] is set to [abc]; a scope
    binds [request_id] to [xyz] and [user] to [bob] and reads; after the
    scope the read is as at the start. *)
Example end_to_end :
  let s1 := outcome_state
              (set_log_contextvars [("request_id", PyStr "abc")] initial_state) in
  let during :=
    log_contextvars map_to_list
      [("request_id", PyStr "xyz"); ("user", PyStr "bob")]
      (gets (get_contextvars map_to_list LOG_PREFIX)) s1 in
  get_contextvars map_to_list LOG_PREFIX s1 = {[ "request_id" := PyStr "abc" ]}
  ∧ (∃ s3, during
           = Ret (<[ "request_id" := PyStr "xyz" ]> {[ "user" := PyStr "bob" ]})
               s3)
  ∧ get_contextvars map_to_list LOG_PREFIX (outcome_state during)
    = {[ "request_id" := PyStr "abc" ]}.
Proof.
  split_and!.
  - vm_compute. reflexivity.
  - eexists. vm_compute. reflexivity.
  - vm_compute. reflexivity.
Qed.

(** A key without a variable in the registry, reached first. *)
Example reset_unknown :
  reset_contextvars "log_" [("b", used_token)] used_state
  = Raise (KeyError "log_b") used_state.
Proof. vm_compute. reflexivity. Qed.

(** The same call, after an entry whose token was used before. *)
Example reset_used_first :
  reset_contextvars "log_" [("a", used_token); ("b", used_token)] used_state
  = Raise RuntimeError used_state.
Proof. vm_compute. reflexivity. Qed.

(** There [owned] fails, and the read of [node] follows the order of
    iteration: one order gives the one value, the reverse order the
    other. *)
Example read_depends_on_order :
  (∀ c : gmap ContextVar value, reverse (map_to_list c) ≡ₚ map_to_list c)
  ∧ ¬ owned "current_" two_nodes_state
  ∧ get_contextvars map_to_list "current_" two_nodes_state !! "node"
    ≠ get_contextvars (λ c, reverse (map_to_list c)) "current_"
        two_nodes_state !! "node".
Proof.
  split_and!.
  - intros c. apply reverse_Permutation.
  - intros Hown.
    specialize (Hown _CURRENT_NODE (PyObj 5)). vm_compute in Hown.
    by specialize (Hown eq_refl eq_refl).
  - vm_compute. discriminate.
Qed.

(** * Further properties of the module *)

(** ** [clear_contextvars] on the context *)

Lemma clear_fold_registry p l s :
  registry (foldl (clear_var p) s l) = registry s.
Proof.
  induction l as [|[var v] l IH] using rev_ind; [done|].
  rewrite foldl_snoc. unfold clear_var at 1. simpl.
  by destruct (startswith p (cv_name var)).
Qed.

Lemma clear_fold_in p l s var :
  var ∈ l.*1 → startswith p (cv_name var) = true →
  ctx (foldl (clear_var p) s l) !! var = Some Ellipsis.
Proof.
  intros Hin Hs. induction l as [|[var' v'] l IH] using rev_ind.
  - by apply elem_of_nil in Hin.
  - rewrite foldl_snoc. unfold clear_var at 1. simpl.
    rewrite fmap_app in Hin. apply elem_of_app in Hin as [Hin|Hin].
    + destruct (startswith p (cv_name var')); [|by apply IH].
      simpl. rewrite lookup_insert. case_decide; [done|by apply IH].
    + apply list_elem_of_singleton in Hin. simpl in Hin. subst var'.
      rewrite Hs. simpl. apply lookup_insert_eq.
Qed.

Lemma clear_fold_out p l s var :
  var ∉ l.*1 ∨ startswith p (cv_name var) = false →
  ctx (foldl (clear_var p) s l) !! var = ctx s !! var.
Proof.
  intros Hout. induction l as [|[var' v'] l IH] using rev_ind; [done|].
  rewrite foldl_snoc. unfold clear_var at 1. simpl.
  assert (Hrec : ctx (foldl (clear_var p) s l) !! var = ctx s !! var).
  { apply IH. destruct Hout as [Hout|Hout]; [left|by right].
    intros Hin. apply Hout. rewrite fmap_app. apply elem_of_app. by left. }
  destruct (startswith p (cv_name var')) eqn:Hs; [|done].
  simpl. rewrite lookup_insert_ne; [done|]. intros ->.
  destruct Hout as [Hout|Hout]; [|congruence].
  apply Hout. rewrite fmap_app. apply elem_of_app. right. by left.
Qed.

Lemma string_app_assoc p q k : (p +:+ q) +:+ k = p +:+ (q +:+ k).
Proof.
  induction p as [|a p IH]; [done|].
  change (String a ((p +:+ q) +:+ k) = String a (p +:+ (q +:+ k))).
  by rewrite IH.
Qed.

Section clearing.

Variable ctx_iter : gmap ContextVar value → list (ContextVar * value).
Hypothesis ctx_iter_perm : ∀ c, ctx_iter c ≡ₚ map_to_list c.

Lemma elem_of_ctx_iter_fst c var :
  var ∈ (ctx_iter c).*1 ↔ is_Some (c !! var).
Proof.
  rewrite list_elem_of_fmap. split.
  - intros ([var' v] & -> & Hin).
    apply (elem_of_ctx_iter ctx_iter ctx_iter_perm) in Hin. by eexists.
  - intros [v Hv]. exists (var, v). split; [done|].
    by apply (elem_of_ctx_iter ctx_iter ctx_iter_perm).
Qed.

Lemma clear_contextvars_registry p s :
  registry (clear_contextvars ctx_iter p s) = registry s.
Proof. apply clear_fold_registry. Qed.

(** A variable that has a value and a name under the prefix holds
    [Ellipsis] afterwards; every other variable is as it was. *)
Lemma clear_contextvars_lookup p s var :
  ctx (clear_contextvars ctx_iter p s) !! var
  = if startswith p (cv_name var)
    then ctx s !! var ≫= λ _, Some Ellipsis
    else ctx s !! var.
Proof.
  unfold clear_contextvars.
  destruct (startswith p (cv_name var)) eqn:Hs.
  - destruct (ctx s !! var) as [v|] eqn:Hc; simpl.
    + apply clear_fold_in; [|done]. apply elem_of_ctx_iter_fst. by eexists.
    + rewrite clear_fold_out; [done|]. left.
      rewrite elem_of_ctx_iter_fst, Hc. by intros [].
  - apply clear_fold_out. by right.
Qed.

(** ** Clearing a prefix *)

(** X1.  After [clear_contextvars(p)] a read under [p], or under any
    prefix that continues [p], is empty: whatever made the variables, in
    any state. *)
Theorem clear_then_read p q s :
  get_contextvars ctx_iter (p +:+ q) (clear_contextvars ctx_iter p s) = ∅.
Proof.
  apply map_eq. intros key. rewrite lookup_empty.
  destruct (get_contextvars ctx_iter (p +:+ q)
              (clear_contextvars ctx_iter p s) !! key) as [v|] eqn:Hl; [|done].
  destruct (get_contextvars_Some ctx_iter ctx_iter_perm _ _ _ _ Hl)
    as (var & Hc & He & Hn).
  rewrite clear_contextvars_lookup, Hn, string_app_assoc, startswith_app in Hc.
  destruct (ctx s !! var); simpl in Hc; [|done]. injection Hc as <-. done.
Qed.

(** X2.  Clearing keeps the registry and the set of variables that the
    context holds, and clearing a second time changes nothing more: the
    context, and so every read, is as after the first time. *)
Theorem clear_twice p s :
  registry (clear_contextvars ctx_iter p s) = registry s
  ∧ (∀ var, is_Some (ctx (clear_contextvars ctx_iter p s) !! var)
            ↔ is_Some (ctx s !! var))
  ∧ ctx (clear_contextvars ctx_iter p (clear_contextvars ctx_iter p s))
    = ctx (clear_contextvars ctx_iter p s)
  ∧ ∀ q, get_contextvars ctx_iter q
           (clear_contextvars ctx_iter p (clear_contextvars ctx_iter p s))
         = get_contextvars ctx_iter q (clear_contextvars ctx_iter p s).
Proof.
  assert (Hctx : ctx (clear_contextvars ctx_iter p
                        (clear_contextvars ctx_iter p s))
                 = ctx (clear_contextvars ctx_iter p s)).
  { apply map_eq. intros var. rewrite !clear_contextvars_lookup.
    destruct (startswith p (cv_name var)); [|done]. by destruct (ctx s !! var). }
  split_and!.
  - apply clear_contextvars_registry.
  - intros var. rewrite clear_contextvars_lookup.
    destruct (startswith p (cv_name var)); [|done].
    destruct (ctx s !! var); simpl; [|done]. split; by eexists.
  - done.
  - intros q. unfold get_contextvars. by rewrite Hctx.
Qed.

(** X3.  Clearing [p] leaves the read of a key under another prefix [q]
    as it was, when the full name of the key does not start with [p]:
    clearing [task_] changes no read under [log_]. *)
Theorem clear_leaves_other_reads p q s key :
  inv s → owned q s → startswith p (q +:+ key) = false →
  get_contextvars ctx_iter q (clear_contextvars ctx_iter p s) !! key
  = get_contextvars ctx_iter q s !! key.
Proof.
  intros Hinv Hown Hs.
  destruct (clear_contextvars_inv ctx_iter ctx_iter_perm p s Hinv)
    as [Hinv' Hown'].
  rewrite !(get_contextvars_owned ctx_iter ctx_iter_perm) by auto.
  unfold reg_value. rewrite clear_contextvars_registry.
  destruct (registry s !! (q +:+ key)) as [var|] eqn:Hr; [simpl|done].
  by rewrite clear_contextvars_lookup, (inv_name s Hinv _ _ Hr), Hs.
Qed.

(** X4.  [clear_contextvars] reaches the current node: after
    [set_current_node(node)], clearing a prefix that is an initial
    segment of [current_node], the empty prefix among them, makes
    [get_current_node] return [Ellipsis]; clearing any other prefix
    leaves the node. *)
Theorem clear_reaches_current_node p node s :
  get_current_node
    (clear_contextvars ctx_iter p (outcome_state (set_current_node node s)))
  = Ret (if startswith p "current_node" then Ellipsis else node)
      (clear_contextvars ctx_iter p (outcome_state (set_current_node node s))).
Proof.
  unfold get_current_node, var_get. rewrite clear_contextvars_lookup.
  simpl. rewrite lookup_insert_eq.
  by destruct (startswith p "current_node").
Qed.

(** ** Writing and unsetting under a prefix *)

(** X5.  After [unset_contextvars(p, *keys)] a read under [p] has the
    earlier bindings of the keys that are not listed, and no other. *)
Theorem unset_then_read p keys s :
  inv s → owned p s →
  get_contextvars ctx_iter p (unset_contextvars p keys s)
  = filter (λ kv, kv.1 ∉ keys) (get_contextvars ctx_iter p s).
Proof.
  intros Hinv Hown. apply map_eq. intros key.
  rewrite (get_after_unset ctx_iter ctx_iter_perm) by done.
  case_decide as Hk; symmetry.
  - apply map_lookup_filter_None. right. intros v _. simpl. tauto.
  - destruct (get_contextvars ctx_iter p s !! key) as [v|] eqn:Hl.
    + by apply map_lookup_filter_Some.
    + apply map_lookup_filter_None. by left.
Qed.

(** X6.  [set_contextvars] under [p] leaves every read under a prefix
    [q] as it was, when none of the names it writes starts with [q]:
    writing under [log_] changes no read under [task_]. *)
Theorem set_leaves_other_reads p q kwargs s :
  inv s → owned q s → kwargs_ok kwargs →
  (∀ k, k ∈ kwargs.*1 → startswith q (p +:+ k) = false) →
  ∃ tokens s',
    set_contextvars p kwargs s = Ret tokens s'
    ∧ get_contextvars ctx_iter q s' = get_contextvars ctx_iter q s.
Proof.
  intros Hinv Hown [Hnd Hpre] Hq. rewrite set_contextvars_unfold by done.
  destruct (set_items_inv p kwargs s Hinv) as (tokens & s' & E & Hinv' & _ & Ho).
  exists tokens, s'. split; [done|]. apply map_eq. intros key.
  rewrite !(get_contextvars_owned ctx_iter ctx_iter_perm) by auto.
  rewrite (set_items_reg_value_out _ _ _ _ _ _ Hinv Hnd E); [done|].
  intros Hin. apply list_elem_of_fmap in Hin as (k & Heq & Hk).
  specialize (Hq k Hk). rewrite <- Heq, startswith_app in Hq. done.
Qed.

(** X7.  [set_current_node] leaves the registry and every read under a
    prefix that is no initial segment of [current_node] as they were. *)
Theorem set_current_node_leaves_reads p node s :
  inv s → owned p s → startswith p "current_node" = false →
  registry (outcome_state (set_current_node node s)) = registry s
  ∧ get_contextvars ctx_iter p (outcome_state (set_current_node node s))
    = get_contextvars ctx_iter p s.
Proof.
  intros Hinv Hown Hp. split; [done|].
  destruct (keeps_set_current_node p node Hp s Hinv Hown) as [Hinv' Hown'].
  apply map_eq. intros key.
  rewrite !(get_contextvars_owned ctx_iter ctx_iter_perm) by auto.
  unfold reg_value. simpl.
  destruct (registry s !! (p +:+ key)) as [var|] eqn:Hr; [simpl|done].
  rewrite lookup_insert_ne; [done|].
  by apply not_eq_sym, (registered_not_node s (p +:+ key)).
Qed.

(** X8.  In a state that has the invariant of the module and in which
    every variable with a value and a name under the prefix is the
    registry's, and for entries with no key named [prefix]: writing the
    entries and then unsetting their keys does not bring the earlier
    values back: the keys read as absent, and every other key as before
    the write.  The restriction to the registry's variables is needed:
    once [set_current_node] has run, [_CURRENT_NODE] has a value and a
    name under [current_] without being in the registry. *)
Theorem unset_after_set p kwargs s :
  inv s → owned p s → kwargs_ok kwargs →
  ∃ tokens s',
    set_contextvars p kwargs s = Ret tokens s'
    ∧ get_contextvars ctx_iter p (unset_contextvars p kwargs.*1 s')
      = filter (λ kv, kv.1 ∉ kwargs.*1) (get_contextvars ctx_iter p s).
Proof.
  intros Hinv Hown Hok.
  destruct (get_after_set ctx_iter ctx_iter_perm p kwargs s Hinv Hown Hok)
    as (tokens & s' & E & Hinv' & Hown' & Hget).
  exists tokens, s'. split; [done|]. apply map_eq. intros key.
  rewrite (get_after_unset ctx_iter ctx_iter_perm) by done.
  case_decide as Hk; symmetry.
  - apply map_lookup_filter_None. right. intros v _. simpl. tauto.
  - rewrite Hget. apply not_elem_of_list_to_map in Hk. rewrite Hk.
    apply not_elem_of_list_to_map in Hk.
    destruct (get_contextvars ctx_iter p s !! key) as [v|] eqn:Hl.
    + by apply map_lookup_filter_Some.
    + apply map_lookup_filter_None. by left.
Qed.

(** X9.  Reading under a longer prefix is reading the keys that start
    with the rest of it. *)
Theorem read_longer_prefix p q s key :
  inv s → owned p s →
  get_contextvars ctx_iter (p +:+ q) s !! key
  = get_contextvars ctx_iter p s !! (q +:+ key).
Proof.
  intros Hinv Hown.
  assert (owned (p +:+ q) s) as Hown'.
  { intros var v Hc Hs. apply (Hown var v Hc).
    rewrite (startswith_split _ _ Hs), string_app_assoc.
    apply startswith_app. }
  rewrite !(get_contextvars_owned ctx_iter ctx_iter_perm) by auto.
  by rewrite string_app_assoc.
Qed.

(** ** More on the scope *)

Lemma scope_exit_nil p s : scope_exit p [] [] s = Ret () s.
Proof. reflexivity. Qed.

(** X10.  A scope without entries is the block alone: the call ends as
    the block does, in the very state the block ends in. *)
Theorem scope_without_entries p {A} (body : M A) s :
  scoped_contextvars ctx_iter p [] body s = body s.
Proof.
  change (try_finally body (scope_exit p [] []) s = body s).
  unfold try_finally. destruct (body s) as [a s1|e s1];
    by rewrite scope_exit_nil.
Qed.

(** X11.  An entry called [prefix] cannot be passed on: the call inside
    meets the parameter of that name, so [set_contextvars],
    [reset_contextvars] and the scope raise [TypeError]; the state is as
    before and the block of the scope is not run. *)
Theorem keyword_prefix_clash p kwargs tokens {A} (body : M A) s :
  ("prefix" ∈ kwargs.*1 →
   set_contextvars p kwargs s = Raise TypeError s
   ∧ scoped_contextvars ctx_iter p kwargs body s = Raise TypeError s)
  ∧ ("prefix" ∈ tokens.*1 →
     reset_contextvars p tokens s = Raise TypeError s).
Proof.
  split.
  - intros Hk. split; [by apply set_contextvars_clash|].
    unfold scoped_contextvars, bind at 1, gets, bind.
    by rewrite set_contextvars_clash.
  - intros Hk. unfold reset_contextvars, bind, bind_kwargs.
    by rewrite decide_True.
Qed.

(** X12.  The scope restores its own keys only: a key that is not among
    the entries reads after the call as the block left it. *)
Theorem scope_other_keys p kwargs {A} (body : M A) s key :
  startswith p "current_node" = false →
  inv s → owned p s → kwargs_ok kwargs → api ctx_iter true body →
  key ∉ kwargs.*1 →
  get_contextvars ctx_iter p
    (outcome_state (scoped_contextvars ctx_iter p kwargs body s)) !! key
  = get_contextvars ctx_iter p
      (outcome_state
         (body (outcome_state (set_contextvars p kwargs s)))) !! key.
Proof.
  intros Hp Hinv Hown Hok Hapi Hk.
  destruct (scoped_spec ctx_iter ctx_iter_perm p kwargs body s Hinv Hown Hok
              (api_keeps ctx_iter ctx_iter_perm p true body Hp Hapi))
    as (tokens & s1 & s3 & -> & _ & _ & _ & -> & _ & _ & _ & Hother).
  simpl. rewrite <- (Hother key Hk). by destruct (body s1).
Qed.

(** X13.  A read inside the scope returns, for each key, the entry given
    for it, an entry given as [Ellipsis] reading as absent, and for a key
    without entry what was visible before; after the scope the whole
    read is as before. *)
Theorem scope_shows_entries p kwargs s :
  inv s → owned p s → kwargs_ok kwargs →
  ∃ d s',
    scoped_contextvars ctx_iter p kwargs (gets (get_contextvars ctx_iter p)) s
    = Ret d s'
    ∧ (∀ key, d !! key
              = match (list_to_map kwargs : gmap string value) !! key with
                | Some v => if is_Ellipsis v then None else Some v
                | None => get_contextvars ctx_iter p s !! key
                end)
    ∧ get_contextvars ctx_iter p s' = get_contextvars ctx_iter p s.
Proof.
  intros Hinv Hown Hok.
  destruct (scoped_spec ctx_iter ctx_iter_perm p kwargs
              (gets (get_contextvars ctx_iter p)) s Hinv Hown Hok
              (keeps_gets p _))
    as (tokens & s1 & s3 & E1 & _ & _ & _ & E & _ & _ & Hkeys & Hother).
  destruct (get_after_set ctx_iter ctx_iter_perm p kwargs s Hinv Hown Hok)
    as (? & ? & E1' & _ & _ & Hget).
  rewrite E1 in E1'. injection E1' as <- <-.
  exists (get_contextvars ctx_iter p s1), s3. split_and!; [done|exact Hget|].
  apply map_eq. intros key.
  destruct (decide (key ∈ kwargs.*1)) as [Hk|Hk]; [by apply Hkeys|].
  rewrite (Hother key Hk). simpl. rewrite Hget.
  apply not_elem_of_list_to_map in Hk. by rewrite Hk.
Qed.

(** ** The two projections *)

Lemma get_after_clear_None p s key :
  get_contextvars ctx_iter p (clear_contextvars ctx_iter p s) !! key = None.
Proof.
  destruct (get_contextvars ctx_iter p
              (clear_contextvars ctx_iter p s) !! key) as [v|] eqn:Hl; [|done].
  destruct (get_contextvars_Some ctx_iter ctx_iter_perm _ _ _ _ Hl)
    as (var & Hc & He & Hn).
  rewrite clear_contextvars_lookup, Hn, startswith_app in Hc.
  destruct (ctx s !! var); simpl in Hc; [|done]. injection Hc as <-. done.
Qed.

(** X14.  In a scope entered with [node_info], [get_node_info] returns
    the object given; after the scope it returns what it returned
    before. *)
Theorem node_info_in_scope v s :
  inv s → owned LOG_PREFIX s → is_Ellipsis v = false →
  ∃ s',
    log_contextvars ctx_iter [("node_info", v)]
      (gets (get_node_info ctx_iter)) s
    = Ret (stored v) s'
    ∧ get_node_info ctx_iter s' = get_node_info ctx_iter s.
Proof.
  intros Hinv Hown He.
  assert (Hok : kwargs_ok [("node_info", v)]) by by apply kwargs_ok_singleton.
  destruct (scoped_spec ctx_iter ctx_iter_perm LOG_PREFIX [("node_info", v)]
              (gets (get_node_info ctx_iter)) s Hinv Hown Hok (keeps_gets _ _))
    as (tokens & s1 & s3 & E1 & _ & _ & _ & E & _ & _ & Hkeys & _).
  destruct (get_after_set ctx_iter ctx_iter_perm LOG_PREFIX
              [("node_info", v)] s Hinv Hown Hok)
    as (? & ? & E1' & _ & _ & Hget).
  rewrite E1 in E1'. injection E1' as <- <-.
  exists s3. split.
  - unfold log_contextvars. rewrite E. unfold gets, get_node_info.
    rewrite Hget. simpl. rewrite lookup_insert_eq. simpl. by rewrite He.
  - unfold get_node_info. rewrite (Hkeys "node_info"); [done|]. by left.
Qed.

(** X15.  After [set_task_contextvars(project_root=v)],
    [get_project_root] returns [v], or [None] when [v] is [Ellipsis];
    after [unset_contextvars] of that key it returns [None]. *)
Theorem project_root_round_trip v s :
  inv s → owned TASK_PREFIX s →
  ∃ tokens s1,
    set_task_contextvars [("project_root", v)] s = Ret tokens s1
    ∧ get_project_root ctx_iter s1 = (if is_Ellipsis v then PyNone else v)
    ∧ get_project_root ctx_iter
        (unset_contextvars TASK_PREFIX ["project_root"] s1) = PyNone.
Proof.
  intros Hinv Hown.
  assert (Hok : kwargs_ok [("project_root", v)])
    by by apply kwargs_ok_singleton.
  destruct (get_after_set ctx_iter ctx_iter_perm TASK_PREFIX
              [("project_root", v)] s Hinv Hown Hok)
    as (tokens & s1 & E1 & Hinv1 & Hown1 & Hget).
  exists tokens, s1. split_and!; [done| |].
  - unfold get_project_root. rewrite Hget. simpl. rewrite lookup_insert_eq.
    simpl. by destruct (is_Ellipsis v).
  - unfold get_project_root.
    rewrite (get_after_unset ctx_iter ctx_iter_perm) by done.
    rewrite decide_True; [done|by left].
Qed.

(** X16.  [get_node_info] and [get_project_root] never return
    [Ellipsis]; after [clear_contextvars] of their prefix they return
    the empty dictionary and [None]. *)
Theorem projections_defaults s :
  get_node_info ctx_iter s ≠ stored Ellipsis
  ∧ get_project_root ctx_iter s ≠ Ellipsis
  ∧ get_node_info ctx_iter (clear_contextvars ctx_iter LOG_PREFIX s)
    = empty_dict
  ∧ get_project_root ctx_iter (clear_contextvars ctx_iter TASK_PREFIX s)
    = PyNone.
Proof.
  split_and!.
  - unfold get_node_info.
    destruct (get_contextvars ctx_iter LOG_PREFIX s !! "node_info")
      as [v|] eqn:Hl; [|done].
    destruct (get_contextvars_Some ctx_iter ctx_iter_perm _ _ _ _ Hl)
      as (_ & _ & He & _).
    intros [= ->]. done.
  - unfold get_project_root.
    destruct (get_contextvars ctx_iter TASK_PREFIX s !! "project_root")
      as [v|] eqn:Hl; [|done].
    destruct (get_contextvars_Some ctx_iter ctx_iter_perm _ _ _ _ Hl)
      as (_ & _ & He & _).
    intros ->. done.
  - unfold get_node_info. by rewrite get_after_clear_None.
  - unfold get_project_root. by rewrite get_after_clear_None.
Qed.

(** ** The registry *)

Lemma set_items_returns p kwargs s :
  ∃ tokens s', set_items p kwargs s = Ret tokens s'
               ∧ registry s ⊆ registry s'.
Proof.
  revert s. induction kwargs as [|[k v] rest IH]; intros s.
  - by exists [], s.
  - destruct (set_items_cons p k v rest s)
      as (var & s1 & -> & _ & _ & _ & _ & Hcase).
    destruct (IH s1) as (tokens & s' & E & Hsub).
    eexists _, s'. rewrite (bind_Ret _ _ _ _ _ E). split; [done|].
    transitivity (registry s1); [|done].
    destruct Hcase as [(_ & -> & _)|(Hnone & -> & _)]; [done|].
    by apply insert_subseteq.
Qed.

Lemma reset_items_registry p kwargs s :
  registry (outcome_state (reset_items p kwargs s)) = registry s.
Proof.
  revert s. induction kwargs as [|[k t] rest IH]; intros s; [done|].
  destruct (registry s !! (p +:+ k)) as [var|] eqn:Hr.
  - rewrite (reset_items_cons_Some _ _ _ _ _ _ Hr). unfold bind.
    pose proof (var_reset_registry var t s) as [H1 _].
    destruct (var_reset var t s) as [[] s1|e s1]; simpl in H1; [|done].
    by rewrite IH.
  - by rewrite (reset_items_cons_None _ _ _ _ _ Hr).
Qed.

(** X17.  The registry only grows: whatever is built from the module's
    functions, a name that has a variable keeps that very variable, so
    each name has one variable for good. *)
Theorem registry_only_grows nodes {A} (m : M A) s n var :
  api ctx_iter nodes m →
  registry s !! n = Some var →
  registry (outcome_state (m s)) !! n = Some var.
Proof.
  intros Hm. revert s. induction Hm as
    [ | | A B m f _ IHm _ IHf | A m h _ IHm _ IHh | A m c _ IHm _ IHc
    | | p kwargs | p kwargs | p keys | p | node Hnodes | ];
    intros s Hr.
  - done.
  - done.
  - unfold bind. specialize (IHm s Hr).
    destruct (m s); [by apply IHf|done].
  - unfold try_except. specialize (IHm s Hr).
    destruct (m s); [done|by apply IHh].
  - unfold try_finally. specialize (IHm s Hr).
    destruct (m s) as [a s1|e s1]; simpl in IHm;
      specialize (IHc s1 IHm); by destruct (c s1) as [[] s2|e' s2].
  - done.
  - destruct (decide ("prefix" ∈ kwargs.*1)) as [Hk|Hk].
    + by rewrite set_contextvars_clash.
    + rewrite set_contextvars_unfold by done.
      destruct (set_items_returns p kwargs s) as (? & ? & -> & Hsub).
      by eapply lookup_weaken.
  - destruct (decide ("prefix" ∈ kwargs.*1)) as [Hk|Hk].
    + unfold reset_contextvars, bind, bind_kwargs. by rewrite decide_True.
    + rewrite reset_contextvars_unfold by done.
      by rewrite reset_items_registry.
  - simpl. by rewrite unset_contextvars_registry.
  - simpl. unfold clear_contextvars. by rewrite clear_fold_registry.
  - done.
  - unfold get_current_node, var_get.
    by destruct (ctx s !! _CURRENT_NODE).
Qed.

(** ** Tokens *)

Lemma var_reset_used var t s s' :
  var_reset var t s = Ret () s' →
  used_tokens s' = {[tok_id t]} ∪ used_tokens s.
Proof.
  unfold var_reset. repeat case_decide; [done| |done].
  destruct (tok_old t); [by intros [= <-]|].
  destruct (ctx s !! var); [by intros [= <-]|done].
Qed.

Lemma reset_items_used p tokens s s' :
  reset_items p tokens s = Ret () s' →
  ∀ i, i ∈ used_tokens s'
       ↔ i ∈ (tok_id <$> tokens.*2) ∨ i ∈ used_tokens s.
Proof.
  revert s. induction tokens as [|[k t] rest IH]; intros s.
  - intros [= <-] i. rewrite elem_of_nil. tauto.
  - destruct (registry s !! (p +:+ k)) as [var|] eqn:Hr.
    + rewrite (reset_items_cons_Some _ _ _ _ _ _ Hr). unfold bind.
      destruct (var_reset var t s) as [[] s1|e s1] eqn:E1; [|done].
      intros E i. rewrite (IH _ E i), (var_reset_used _ _ _ _ E1).
      rewrite !fmap_cons, elem_of_cons, elem_of_union, elem_of_singleton.
      simpl. tauto.
    + by rewrite (reset_items_cons_None _ _ _ _ _ Hr).
Qed.

Lemma unset_contextvars_used p keys s :
  used_tokens (unset_contextvars p keys s) = used_tokens s.
Proof.
  induction keys as [|k keys IH] using rev_ind; [done|].
  rewrite unset_contextvars_snoc. unfold unset_key.
  by destruct (registry (unset_contextvars p keys s) !! (p +:+ k)).
Qed.

Lemma unset_contextvars_is_Some p keys s var :
  is_Some (ctx s !! var) → is_Some (ctx (unset_contextvars p keys s) !! var).
Proof.
  intros Hs. induction keys as [|k keys IH] using rev_ind; [done|].
  rewrite unset_contextvars_snoc. unfold unset_key.
  destruct (registry (unset_contextvars p keys s) !! (p +:+ k)); [|done].
  simpl. rewrite lookup_insert. by case_decide.
Qed.

(** The tokens of a write, taken back in a later state that still holds
    the variables and has not used the tokens: each variable of the
    write gets the value it had before the write. *)
Lemma reset_tokens_of_set p kwargs s tokens s1 s3 :
  inv s → NoDup kwargs.*1 → set_items p kwargs s = Ret tokens s1 →
  inv s3 → registry s1 ⊆ registry s3 →
  (∀ k t, (k, t) ∈ tokens →
          (tok_id t ∉ used_tokens s3) ∧ is_Some (ctx s3 !! tok_var t)) →
  ∃ s4, reset_items p tokens s3 = Ret () s4
        ∧ registry s4 = registry s3
        ∧ (∀ k t, (k, t) ∈ tokens →
                  registry s1 !! (p +:+ k) = Some (tok_var t)
                  ∧ ctx s4 !! tok_var t = ctx s !! tok_var t)
        ∧ (∀ var, (∀ k, k ∈ kwargs.*1 →
                        registry s3 !! (p +:+ k) ≠ Some var) →
                  ctx s4 !! var = ctx s3 !! var).
Proof.
  intros Hinv Hnd E Hinv3 Hsub Hfresh.
  destruct (set_items_spec p kwargs s Hinv Hnd)
    as (? & ? & E' & _ & _ & _ & _ & _ & _ & _ & Hkeys & Htoks & Hids).
  rewrite E in E'. injection E' as <- <-.
  destruct (reset_items_restore p tokens s3 Hinv3)
    as (s4 & E4 & Hr4 & Hold & Hframe).
  - by rewrite Hkeys.
  - rewrite Hids. apply NoDup_seq.
  - intros k t Hin. destruct (Htoks k t Hin) as [Hr _].
    destruct (Hfresh k t Hin) as [Hu Hc]. split_and!; auto.
    by eapply lookup_weaken.
  - exists s4. split_and!; auto.
    + intros k t Hin. destruct (Htoks k t Hin) as [Hr Ho].
      split; [done|]. rewrite <- Ho. by apply (Hold k).
    + intros var Hvar. apply Hframe. by rewrite Hkeys.
Qed.

(** The tokens of a write are new, unused, and their variables hold a
    value after the write. *)
Lemma set_items_tokens_fresh p kwargs s tokens s1 :
  inv s → tokens_ok s → NoDup kwargs.*1 →
  set_items p kwargs s = Ret tokens s1 →
  inv s1 ∧ tokens_ok s1 ∧ registry s ⊆ registry s1
  ∧ used_tokens s1 = used_tokens s
  ∧ tokens.*1 = kwargs.*1
  ∧ ∀ k t, (k, t) ∈ tokens →
           next_token s ≤ tok_id t < next_token s1
           ∧ (tok_id t ∉ used_tokens s1)
           ∧ is_Some (ctx s1 !! tok_var t).
Proof.
  intros Hinv Htok Hnd E.
  destruct (set_items_spec p kwargs s Hinv Hnd)
    as (? & ? & E' & Hinv1 & Hsub & _ & Hset & _ & Hu & Hnt & Hkeys
        & Htoks & Hids).
  rewrite E in E'. injection E' as <- <-.
  assert (Hrange : ∀ k t, (k, t) ∈ tokens →
                          next_token s ≤ tok_id t < next_token s1).
  { intros k t Hin.
    assert (tok_id t ∈ seq (next_token s) (length kwargs)) as Hseq.
    { rewrite <- Hids. apply list_elem_of_fmap. exists t. split; [done|].
      apply list_elem_of_fmap. by exists (k, t). }
    apply elem_of_seq in Hseq. lia. }
  split_and!; auto.
  - intros i. rewrite Hu. intros Hi. apply Htok in Hi. lia.
  - intros k t Hin. split_and!; [apply (Hrange k t Hin)..| |].
    + rewrite Hu. intros Hi. apply Htok in Hi.
      pose proof (Hrange k t Hin). lia.
    + assert (k ∈ kwargs.*1) as Hk.
      { rewrite <- Hkeys. apply list_elem_of_fmap. by exists (k, t). }
      apply list_elem_of_fmap in Hk as ([k' v] & Heq & Hin').
      simpl in Heq. subst k'.
      destruct (Hset _ _ Hin') as (var & Hr' & Hc).
      destruct (Htoks _ _ Hin) as [Hr _].
      rewrite Hr in Hr'. injection Hr' as <-. by eexists.
Qed.

(** In a later state that has the context of the state after the write,
    taking the tokens back gives the context of before the write. *)
Lemma reset_tokens_of_set_ctx p kwargs s tokens s1 s3 :
  inv s → NoDup kwargs.*1 → set_items p kwargs s = Ret tokens s1 →
  inv s3 → registry s1 ⊆ registry s3 → ctx s3 = ctx s1 →
  (∀ k t, (k, t) ∈ tokens → tok_id t ∉ used_tokens s3) →
  ∃ s4, reset_items p tokens s3 = Ret () s4
        ∧ registry s4 = registry s3
        ∧ ctx s4 = ctx s.
Proof.
  intros Hinv Hnd E Hinv3 Hsub Hctx Hfresh.
  destruct (set_items_spec p kwargs s Hinv Hnd)
    as (? & ? & E' & Hinv1 & _ & _ & Hset & Hframe & _ & _ & Hkeys
        & Htoks & _).
  rewrite E in E'. injection E' as <- <-.
  destruct (reset_tokens_of_set p kwargs s tokens s1 s3 Hinv Hnd E Hinv3 Hsub)
    as (s4 & E4 & Hr4 & Hold & Hfr4).
  { intros k t Hin. split; [by apply (Hfresh k t)|]. rewrite Hctx.
    assert (k ∈ kwargs.*1) as Hk.
    { rewrite <- Hkeys. apply list_elem_of_fmap. by exists (k, t). }
    apply list_elem_of_fmap in Hk as ([k' v] & Heq & Hin').
    simpl in Heq. subst k'.
    destruct (Hset _ _ Hin') as (var & Hr' & Hc).
    destruct (Htoks _ _ Hin) as [Hr _].
    rewrite Hr in Hr'. injection Hr' as <-. by eexists. }
  exists s4. split_and!; auto. apply map_eq. intros var.
  destruct (decide (Exists (λ k, registry s3 !! (p +:+ k) = Some var)
                           kwargs.*1)) as [Hex|Hex].
  - apply Exists_exists in Hex as (k & Hk & Hr).
    rewrite <- Hkeys in Hk.
    apply list_elem_of_fmap in Hk as ([k' t] & Heq & Hin).
    simpl in Heq. subst k'.
    destruct (Hold _ _ Hin) as [Hr1 Hc].
    apply (lookup_weaken _ _ _ _ Hr1) in Hsub. rewrite Hr in Hsub.
    injection Hsub as ->. done.
  - assert (∀ k, k ∈ kwargs.*1 → registry s3 !! (p +:+ k) ≠ Some var) as Hno.
    { intros k Hk Hr. apply Hex. apply Exists_exists. by exists k. }
    rewrite (Hfr4 var Hno), Hctx. apply Hframe. intros k Hk Hr.
    apply (Hno k Hk). by eapply lookup_weaken.
Qed.

(** X18.  [set_contextvars] returns one token for each entry, under the
    same keys in the same order; the tokens are new and unused, and each
    belongs to the variable registered for its key and records what that
    variable held before the call. *)
Theorem set_contextvars_tokens p kwargs s :
  inv s → tokens_ok s → kwargs_ok kwargs →
  ∃ tokens s',
    set_contextvars p kwargs s = Ret tokens s'
    ∧ tokens.*1 = kwargs.*1
    ∧ NoDup (tok_id <$> tokens.*2)
    ∧ used_tokens s' = used_tokens s
    ∧ ∀ k t, (k, t) ∈ tokens →
             registry s' !! (p +:+ k) = Some (tok_var t)
             ∧ tok_old t = ctx s !! tok_var t
             ∧ tok_id t ∉ used_tokens s'.
Proof.
  intros Hinv Htok [Hnd Hpre]. rewrite set_contextvars_unfold by done.
  destruct (set_items_spec p kwargs s Hinv Hnd)
    as (tokens & s' & E & _ & _ & _ & _ & _ & Hu & _ & Hkeys & Htoks & Hids).
  destruct (set_items_tokens_fresh p kwargs s tokens s' Hinv Htok Hnd E)
    as (_ & _ & _ & _ & _ & Hfresh).
  exists tokens, s'. split_and!; auto.
  - rewrite Hids. apply NoDup_seq.
  - intros k t Hin. destruct (Htoks k t Hin) as [Hr Ho].
    destruct (Hfresh k t Hin) as (_ & Hnew & _). done.
Qed.

(** X19.  Tokens are taken back once: after [reset_contextvars] has
    taken back the tokens of a write, a second call with the same tokens
    raises [RuntimeError] at its first entry and changes nothing. *)
Theorem reset_twice p kwargs s :
  inv s → tokens_ok s → kwargs_ok kwargs → kwargs ≠ [] →
  ∃ tokens s1 s2,
    set_contextvars p kwargs s = Ret tokens s1
    ∧ reset_contextvars p tokens s1 = Ret () s2
    ∧ reset_contextvars p tokens s2 = Raise RuntimeError s2.
Proof.
  intros Hinv Htok [Hnd Hpre] Hne. rewrite set_contextvars_unfold by done.
  destruct (set_items_returns p kwargs s) as (tokens & s1 & E & _).
  destruct (set_items_tokens_fresh p kwargs s tokens s1 Hinv Htok Hnd E)
    as (Hinv1 & _ & _ & _ & Hkeys & Hfresh).
  destruct (reset_tokens_of_set p kwargs s tokens s1 s1 Hinv Hnd E Hinv1)
    as (s2 & E2 & Hr2 & Hold & _); [done| |].
  { intros k t Hin. by destruct (Hfresh k t Hin) as (_ & ? & ?). }
  exists tokens, s1, s2.
  rewrite !reset_contextvars_unfold by (by rewrite Hkeys).
  split_and!; auto.
  destruct tokens as [|[k t] rest].
  { destruct kwargs; [done|discriminate Hkeys]. }
  destruct (Hold k t) as [Hr _]; [by left|].
  rewrite <- Hr2 in Hr. rewrite (reset_items_cons_Some _ _ _ _ _ _ Hr).
  unfold bind, var_reset. rewrite decide_True; [done|].
  apply (reset_items_used _ _ _ _ E2). left. rewrite !fmap_cons. by left.
Qed.

(** X20.  Nested writes undo in reverse order: a write, a second write
    under any prefix and keys, the second taken back and then the first,
    all succeed and leave the context, and so every read, as before the
    first write. *)
Theorem reset_lifo p1 kwargs1 p2 kwargs2 s :
  inv s → tokens_ok s → kwargs_ok kwargs1 → kwargs_ok kwargs2 →
  ∃ tokens1 s1 tokens2 s2 s3 s4,
    set_contextvars p1 kwargs1 s = Ret tokens1 s1
    ∧ set_contextvars p2 kwargs2 s1 = Ret tokens2 s2
    ∧ reset_contextvars p2 tokens2 s2 = Ret () s3
    ∧ reset_contextvars p1 tokens1 s3 = Ret () s4
    ∧ ctx s4 = ctx s
    ∧ ∀ q, get_contextvars ctx_iter q s4 = get_contextvars ctx_iter q s.
Proof.
  intros Hinv Htok [Hnd1 Hpre1] [Hnd2 Hpre2].
  rewrite set_contextvars_unfold by done.
  destruct (set_items_returns p1 kwargs1 s) as (tokens1 & s1 & E1 & _).
  destruct (set_items_tokens_fresh p1 kwargs1 s tokens1 s1 Hinv Htok Hnd1 E1)
    as (Hinv1 & Htok1 & Hsub1 & Hu1 & Hkeys1 & Hfresh1).
  destruct (set_items_returns p2 kwargs2 s1) as (tokens2 & s2 & E2 & _).
  destruct (set_items_tokens_fresh p2 kwargs2 s1 tokens2 s2 Hinv1 Htok1 Hnd2 E2)
    as (Hinv2 & Htok2 & Hsub2 & Hu2 & Hkeys2 & Hfresh2).
  destruct (reset_tokens_of_set_ctx p2 kwargs2 s1 tokens2 s2 s2
              Hinv1 Hnd2 E2 Hinv2)
    as (s3 & E3 & Hr3 & Hc3); [done|done| |].
  { intros k t Hin. by destruct (Hfresh2 k t Hin) as (_ & ? & _). }
  assert (Hinv3 : inv s3).
  { pose proof (reset_items_inv p2 tokens2 s2 Hinv2) as [H _].
    by rewrite E3 in H. }
  destruct (reset_tokens_of_set_ctx p1 kwargs1 s tokens1 s1 s3
              Hinv Hnd1 E1 Hinv3)
    as (s4 & E4 & Hr4 & Hc4); [by rewrite Hr3|done| |].
  { intros k t Hin Hused.
    apply (reset_items_used _ _ _ _ E3) in Hused.
    destruct (Hfresh1 k t Hin) as (Hrange & Hnew & _).
    destruct Hused as [Hused|Hused].
    - apply list_elem_of_fmap in Hused as (t2 & Heq & Hin2).
      apply list_elem_of_fmap in Hin2 as ([k2 t2'] & Heq2 & Hin2).
      simpl in Heq2. subst t2'.
      destruct (Hfresh2 k2 t2 Hin2) as (Hrange2 & _). lia.
    - rewrite Hu2 in Hused. done. }
  exists tokens1, s1, tokens2, s2, s3, s4.
  rewrite set_contextvars_unfold by done.
  rewrite !reset_contextvars_unfold by (by rewrite ?Hkeys1, ?Hkeys2).
  split_and!; auto. intros q. unfold get_contextvars. by rewrite Hc4.
Qed.

(** X21.  Unsetting in between does not spend the tokens: after a write
    and any [unset_contextvars] under the same prefix,
    [reset_contextvars] on the tokens of the write still succeeds, and
    each key of the write reads as before the write. *)
Theorem reset_after_unset p kwargs keys s :
  inv s → tokens_ok s → owned p s → kwargs_ok kwargs →
  ∃ tokens s1 s3,
    set_contextvars p kwargs s = Ret tokens s1
    ∧ reset_contextvars p tokens (unset_contextvars p keys s1) = Ret () s3
    ∧ ∀ key, key ∈ kwargs.*1 →
             get_contextvars ctx_iter p s3 !! key
             = get_contextvars ctx_iter p s !! key.
Proof.
  intros Hinv Htok Hown [Hnd Hpre]. rewrite set_contextvars_unfold by done.
  destruct (set_items_inv p kwargs s Hinv)
    as (tokens & s1 & E & _ & _ & Hown1).
  destruct (set_items_tokens_fresh p kwargs s tokens s1 Hinv Htok Hnd E)
    as (Hinv1 & _ & Hsub & _ & Hkeys & Hfresh).
  destruct (unset_contextvars_inv p keys s1 Hinv1) as [Hinv2 Hown2].
  destruct (reset_tokens_of_set p kwargs s tokens s1
              (unset_contextvars p keys s1) Hinv Hnd E Hinv2)
    as (s3 & E3 & Hr3 & Hold & _).
  { by rewrite unset_contextvars_registry. }
  { intros k t Hin. destruct (Hfresh k t Hin) as (_ & Hnew & Hsome).
    rewrite unset_contextvars_used. split; [done|].
    by apply unset_contextvars_is_Some. }
  exists tokens, s1, s3.
  rewrite reset_contextvars_unfold by (by rewrite Hkeys).
  split_and!; auto. intros key Hk.
  pose proof (reset_items_inv p tokens _ Hinv2) as [Hinv3 Hown3].
  rewrite E3 in Hinv3, Hown3. simpl in Hinv3, Hown3.
  rewrite !(get_contextvars_owned ctx_iter ctx_iter_perm)
    by (auto using Hown3, Hown2, Hown1).
  rewrite <- Hkeys in Hk.
  apply list_elem_of_fmap in Hk as ([k' t] & Heq & Hin).
  simpl in Heq. subst k'. destruct (Hold _ _ Hin) as [Hr1 Hc].
  unfold reg_value. rewrite Hr3, unset_contextvars_registry, Hr1. simpl.
  rewrite Hc.
  destruct (registry s !! (p +:+ key)) as [var|] eqn:Hr; simpl.
  - apply (lookup_weaken _ _ _ _ Hr) in Hsub. rewrite Hr1 in Hsub.
    by injection Hsub as ->.
  - destruct (ctx s !! tok_var t) as [v|] eqn:Hv; [|done].
    assert (registry s !! cv_name (tok_var t) = Some (tok_var t)) as Hreg.
    { apply (Hown _ _ Hv). rewrite (inv_name s1 Hinv1 _ _ Hr1).
      apply startswith_app. }
    rewrite (inv_name s1 Hinv1 _ _ Hr1) in Hreg. congruence.
Qed.

(** ** The states the module reaches *)

(** X22.  In every state reached from the initial one by calls of the
    module's functions, the registry is one-to-one: a variable is
    registered under its own name and under no other, [_CURRENT_NODE] is
    not in it, and every variable of the context named under [log_] or
    [task_] is the registry's variable of that name. *)
Theorem module_invariant nodes {A} (m : M A) :
  api ctx_iter nodes m →
  let s := outcome_state (m initial_state) in
  (∀ n var, registry s !! n = Some var →
            cv_name var = n ∧ var ≠ _CURRENT_NODE)
  ∧ (∀ n1 n2 var, registry s !! n1 = Some var →
                  registry s !! n2 = Some var → n1 = n2)
  ∧ owned LOG_PREFIX s ∧ owned TASK_PREFIX s.
Proof.
  intros Hm s.
  destruct (api_keeps ctx_iter ctx_iter_perm LOG_PREFIX nodes m eq_refl Hm
              initial_state inv_initial (owned_initial _)) as [Hinv Hlog].
  destruct (api_keeps ctx_iter ctx_iter_perm TASK_PREFIX nodes m eq_refl Hm
              initial_state inv_initial (owned_initial _)) as [_ Htask].
  split_and!; auto.
  - intros n var Hr. split; [by apply (inv_name s Hinv)|].
    by apply (registered_not_node s n).
  - intros n1 n2 var H1 H2.
    by rewrite <- (inv_name s Hinv _ _ H1), <- (inv_name s Hinv _ _ H2).
Qed.

End clearing.

(** ** Instances of the further properties *)

Lemma x0_state_tokens_ok : tokens_ok x0_state.
Proof. intros t Ht. exfalso. exact (not_elem_of_empty (C:=gset nat) t Ht). Qed.

Lemma clear_then_read_witness :
  get_contextvars map_to_list ("log_" +:+ "")
    (clear_contextvars map_to_list "log_" x0_state) = ∅.
Proof.
  apply (clear_then_read map_to_list map_to_list_iter "log_" "" x0_state).
Defined.

Lemma clear_twice_witness :
  registry (clear_contextvars map_to_list "log_" x0_state)
  = registry x0_state.
Proof.
  apply (proj1 (clear_twice map_to_list map_to_list_iter "log_" x0_state)).
Defined.

Lemma clear_leaves_other_reads_witness :
  get_contextvars map_to_list "log_"
    (clear_contextvars map_to_list "task_" x0_state) !! "x"
  = get_contextvars map_to_list "log_" x0_state !! "x".
Proof.
  apply (clear_leaves_other_reads map_to_list map_to_list_iter
           "task_" "log_" x0_state "x").
  - apply x0_state_inv.
  - apply x0_state_inv.
  - reflexivity.
Defined.

(** Clearing the empty prefix turns the current node into [Ellipsis]. *)
Lemma clear_reaches_current_node_witness :
  get_current_node
    (clear_contextvars map_to_list ""
       (outcome_state (set_current_node (PyObj 5) initial_state)))
  = Ret Ellipsis
      (clear_contextvars map_to_list ""
         (outcome_state (set_current_node (PyObj 5) initial_state))).
Proof.
  apply (clear_reaches_current_node map_to_list map_to_list_iter
           "" (PyObj 5) initial_state).
Defined.

Lemma unset_then_read_witness :
  get_contextvars map_to_list "log_" (unset_contextvars "log_" ["x"] x0_state)
  = filter (λ kv, kv.1 ∉ ["x"]) (get_contextvars map_to_list "log_" x0_state).
Proof.
  apply (unset_then_read map_to_list map_to_list_iter "log_" ["x"] x0_state);
    apply x0_state_inv.
Defined.

Lemma set_leaves_other_reads_witness :
  ∃ tokens s',
    set_contextvars "task_" [("project_root", PyStr "/p")] x0_state
    = Ret tokens s'
    ∧ get_contextvars map_to_list "log_" s'
      = get_contextvars map_to_list "log_" x0_state.
Proof.
  apply (set_leaves_other_reads map_to_list map_to_list_iter "task_" "log_"
           [("project_root", PyStr "/p")] x0_state).
  - apply x0_state_inv.
  - apply x0_state_inv.
  - by apply kwargs_ok_singleton.
  - intros k _. reflexivity.
Defined.

Lemma set_current_node_leaves_reads_witness :
  registry (outcome_state (set_current_node (PyObj 5) x0_state))
  = registry x0_state
  ∧ get_contextvars map_to_list "log_"
      (outcome_state (set_current_node (PyObj 5) x0_state))
    = get_contextvars map_to_list "log_" x0_state.
Proof.
  apply (set_current_node_leaves_reads map_to_list map_to_list_iter
           "log_" (PyObj 5) x0_state).
  - apply x0_state_inv.
  - apply x0_state_inv.
  - reflexivity.
Defined.

Lemma unset_after_set_witness :
  ∃ tokens s',
    set_contextvars "log_" [("x", PyInt 1)] x0_state = Ret tokens s'
    ∧ get_contextvars map_to_list "log_"
        (unset_contextvars "log_" [("x", PyInt 1)].*1 s')
      = filter (λ kv, kv.1 ∉ [("x", PyInt 1)].*1)
          (get_contextvars map_to_list "log_" x0_state).
Proof.
  apply (unset_after_set map_to_list map_to_list_iter "log_"
           [("x", PyInt 1)] x0_state).
  - apply x0_state_inv.
  - apply x0_state_inv.
  - by apply kwargs_ok_singleton.
Defined.

Lemma read_longer_prefix_witness :
  get_contextvars map_to_list ("lo" +:+ "g_") x0_state !! "x"
  = get_contextvars map_to_list "lo" x0_state !! ("g_" +:+ "x").
Proof.
  apply (read_longer_prefix map_to_list map_to_list_iter "lo" "g_"
           x0_state "x").
  - apply x0_state_inv.
  - apply (keeps_set_contextvars "lo" "log_" [("x", PyInt 0)] initial_state
             inv_initial (owned_initial _)).
Defined.

Lemma keyword_prefix_clash_witness :
  set_contextvars "log_" [("prefix", PyInt 1)] initial_state
  = Raise TypeError initial_state
  ∧ log_contextvars map_to_list [("prefix", PyInt 1)] (ret ()) initial_state
    = Raise TypeError initial_state.
Proof.
  apply (proj1 (keyword_prefix_clash map_to_list "log_"
                  [("prefix", PyInt 1)] [] (ret ()) initial_state)).
  by left.
Defined.

(** The block writes [y], which the scope does not cover. *)
Lemma scope_other_keys_witness :
  get_contextvars map_to_list "log_"
    (outcome_state
       (log_contextvars map_to_list [("x", PyInt 1)]
          (set_contextvars "log_" [("y", PyInt 3)]) x0_state)) !! "y"
  = get_contextvars map_to_list "log_"
      (outcome_state
         (set_contextvars "log_" [("y", PyInt 3)]
            (outcome_state
               (set_contextvars "log_" [("x", PyInt 1)] x0_state)))) !! "y".
Proof.
  apply (scope_other_keys map_to_list map_to_list_iter "log_"
           [("x", PyInt 1)] (set_contextvars "log_" [("y", PyInt 3)])
           x0_state "y").
  - reflexivity.
  - apply x0_state_inv.
  - apply x0_state_inv.
  - by apply kwargs_ok_singleton.
  - apply api_set_contextvars.
  - by_decide.
Defined.

Lemma scope_shows_entries_witness :
  ∃ d s',
    log_contextvars map_to_list [("x", PyInt 1)]
      (gets (get_contextvars map_to_list "log_")) x0_state
    = Ret d s'
    ∧ (∀ key, d !! key
              = match (list_to_map [("x", PyInt 1)] : gmap string value)
                        !! key with
                | Some v => if is_Ellipsis v then None else Some v
                | None => get_contextvars map_to_list "log_" x0_state !! key
                end)
    ∧ get_contextvars map_to_list "log_" s'
      = get_contextvars map_to_list "log_" x0_state.
Proof.
  apply (scope_shows_entries map_to_list map_to_list_iter "log_"
           [("x", PyInt 1)] x0_state).
  - apply x0_state_inv.
  - apply x0_state_inv.
  - by apply kwargs_ok_singleton.
Defined.

Lemma node_info_in_scope_witness :
  ∃ s',
    log_contextvars map_to_list [("node_info", PyObj 7)]
      (gets (get_node_info map_to_list)) x0_state
    = Ret (stored (PyObj 7)) s'
    ∧ get_node_info map_to_list s' = get_node_info map_to_list x0_state.
Proof.
  apply (node_info_in_scope map_to_list map_to_list_iter (PyObj 7) x0_state).
  - apply x0_state_inv.
  - apply x0_state_inv.
  - reflexivity.
Defined.

Lemma project_root_round_trip_witness :
  ∃ tokens s1,
    set_task_contextvars [("project_root", PyStr "/p")] initial_state
    = Ret tokens s1
    ∧ get_project_root map_to_list s1
      = (if is_Ellipsis (PyStr "/p") then PyNone else PyStr "/p")
    ∧ get_project_root map_to_list
        (unset_contextvars TASK_PREFIX ["project_root"] s1) = PyNone.
Proof.
  apply (project_root_round_trip map_to_list map_to_list_iter (PyStr "/p")
           initial_state).
  - apply inv_initial.
  - apply owned_initial.
Defined.

Lemma projections_defaults_witness :
  get_node_info map_to_list x0_state ≠ stored Ellipsis
  ∧ get_project_root map_to_list x0_state ≠ Ellipsis
  ∧ get_node_info map_to_list (clear_contextvars map_to_list LOG_PREFIX x0_state)
    = empty_dict
  ∧ get_project_root map_to_list
      (clear_contextvars map_to_list TASK_PREFIX x0_state)
    = PyNone.
Proof.
  apply (projections_defaults map_to_list map_to_list_iter x0_state).
Defined.

(** Clearing everything leaves [log_x] registered to its variable. *)
Lemma registry_only_grows_witness :
  registry
    (outcome_state (modify (clear_contextvars map_to_list "") x0_state))
    !! "log_x"
  = Some (mkContextVar 1 "log_x" (Some Ellipsis)).
Proof.
  apply (registry_only_grows map_to_list true
           (modify (clear_contextvars map_to_list "")) x0_state).
  - apply api_clear_contextvars.
  - vm_compute. reflexivity.
Defined.

Lemma set_contextvars_tokens_witness :
  ∃ tokens s',
    set_contextvars "log_" [("x", PyInt 1)] x0_state = Ret tokens s'
    ∧ tokens.*1 = [("x", PyInt 1)].*1
    ∧ NoDup (tok_id <$> tokens.*2)
    ∧ used_tokens s' = used_tokens x0_state
    ∧ ∀ k t, (k, t) ∈ tokens →
             registry s' !! ("log_" +:+ k) = Some (tok_var t)
             ∧ tok_old t = ctx x0_state !! tok_var t
             ∧ tok_id t ∉ used_tokens s'.
Proof.
  apply (set_contextvars_tokens "log_" [("x", PyInt 1)] x0_state).
  - apply x0_state_inv.
  - apply x0_state_tokens_ok.
  - by apply kwargs_ok_singleton.
Defined.

Lemma reset_twice_witness :
  ∃ tokens s1 s2,
    set_contextvars "log_" [("x", PyInt 1)] x0_state = Ret tokens s1
    ∧ reset_contextvars "log_" tokens s1 = Ret () s2
    ∧ reset_contextvars "log_" tokens s2 = Raise RuntimeError s2.
Proof.
  apply (reset_twice "log_" [("x", PyInt 1)] x0_state).
  - apply x0_state_inv.
  - apply x0_state_tokens_ok.
  - by apply kwargs_ok_singleton.
  - done.
Defined.

Lemma reset_lifo_witness :
  ∃ tokens1 s1 tokens2 s2 s3 s4,
    set_contextvars "log_" [("x", PyInt 1)] x0_state = Ret tokens1 s1
    ∧ set_contextvars "log_" [("x", PyInt 2)] s1 = Ret tokens2 s2
    ∧ reset_contextvars "log_" tokens2 s2 = Ret () s3
    ∧ reset_contextvars "log_" tokens1 s3 = Ret () s4
    ∧ ctx s4 = ctx x0_state
    ∧ ∀ q, get_contextvars map_to_list q s4
           = get_contextvars map_to_list q x0_state.
Proof.
  apply (reset_lifo map_to_list "log_" [("x", PyInt 1)]
           "log_" [("x", PyInt 2)] x0_state).
  - apply x0_state_inv.
  - apply x0_state_tokens_ok.
  - by apply kwargs_ok_singleton.
  - by apply kwargs_ok_singleton.
Defined.

Lemma reset_after_unset_witness :
  ∃ tokens s1 s3,
    set_contextvars "log_" [("x", PyInt 1)] x0_state = Ret tokens s1
    ∧ reset_contextvars "log_" tokens (unset_contextvars "log_" ["x"] s1)
      = Ret () s3
    ∧ ∀ key, key ∈ [("x", PyInt 1)].*1 →
             get_contextvars map_to_list "log_" s3 !! key
             = get_contextvars map_to_list "log_" x0_state !! key.
Proof.
  apply (reset_after_unset map_to_list map_to_list_iter "log_"
           [("x", PyInt 1)] ["x"] x0_state).
  - apply x0_state_inv.
  - apply x0_state_tokens_ok.
  - apply x0_state_inv.
  - by apply kwargs_ok_singleton.
Defined.

Lemma module_invariant_witness :
  let s := outcome_state
             (log_contextvars map_to_list [("x", PyInt 1)]
                (set_current_node (PyObj 5)) initial_state) in
  (∀ n var, registry s !! n = Some var →
            cv_name var = n ∧ var ≠ _CURRENT_NODE)
  ∧ (∀ n1 n2 var, registry s !! n1 = Some var →
                  registry s !! n2 = Some var → n1 = n2)
  ∧ owned LOG_PREFIX s ∧ owned TASK_PREFIX s.
Proof.
  apply (module_invariant map_to_list map_to_list_iter true
           (log_contextvars map_to_list [("x", PyInt 1)]
              (set_current_node (PyObj 5)))).
  apply api_scoped_contextvars. by apply api_set_current_node.
Defined.

(** * The current node and the other functions *)





Section node.

Variable ctx_iter : gmap ContextVar value → list (ContextVar * value).
Hypothesis ctx_iter_perm : ∀ c, ctx_iter c ≡ₚ map_to_list c.



End node.



(** * Two callers in parallel *)

(** A caller that is left alone runs the loop of [set_contextvars]: it
    ends in the state and with the tokens of [set_items]. *)
Lemma caller_alone kwargs : ∀ p s toks0,
  ∃ n toks s',
    set_items p kwargs s = Ret toks s'
    ∧ caller_run n s (mkCaller p kwargs AtLookup toks0)
      = (s', mkCaller p [] AtLookup (toks0 ++ toks)%list).
Proof.
  induction kwargs as [|[k v] rest IH]; intros p s toks0.
  - exists 0, [], s. split; [reflexivity|]. simpl. by rewrite app_nil_r.
  - simpl set_items. unfold bind at 1, lookup_or_create.
    destruct (registry s !! (p +:+ k)) as [var|] eqn:E.
    + destruct (IH p (set_state var v s)
                  (toks0 ++ [(k, mkToken (next_token s) var (ctx s !! var))])%list)
        as (n & toks & s' & Hs & Hr).
      exists (S (S n)), ((k, mkToken (next_token s) var (ctx s !! var)) :: toks), s'.
      split.
      * unfold bind at 1, var_set. unfold bind at 1. by rewrite Hs.
      * simpl. repeat (unfold caller_step at 1; simpl; rewrite ?E; simpl).
        rewrite Hr. by rewrite <- app_assoc.
    + set (var := mkContextVar (next_var s) (p +:+ k) (Some Ellipsis)).
      set (s1 := mkState (<[p +:+ k := var]> (registry s)) (ctx s)
                         (S (next_var s)) (next_token s) (used_tokens s)).
      destruct (IH p (set_state var v s1)
                  (toks0 ++ [(k, mkToken (next_token s1) var (ctx s1 !! var))])%list)
        as (n & toks & s' & Hs & Hr).
      exists (S (S (S (S n)))),
        ((k, mkToken (next_token s1) var (ctx s1 !! var)) :: toks), s'.
      split.
      * unfold bind at 1, var_set. unfold bind at 1. fold s1. by rewrite Hs.
      * simpl. repeat (unfold caller_step at 1; simpl; rewrite ?E; simpl).
        subst var s1. simpl in Hr. rewrite Hr. by rewrite <- app_assoc.
Qed.















